(** * Spotlight Lover back end: leaderboard and payment confirmation

    A shallow embedding of
      - [LeaderboardService]  (modules/leaderboard/leaderboard.service.ts),
      - [LeaderboardGateway]  (modules/leaderboard/leaderboard.gateway.ts),
      - [LeaderboardController.refreshLeaderboard]
        (modules/leaderboard/leaderboard.controller.ts),
      - [VotesService.confirmPayment], [findOne] and [checkPaymentStatus]
        (modules/votes/votes.service.ts),
    over an explicit store (the Prisma tables as lists of rows, in table
    order) and the two mutable fields of the service.

    JavaScript numbers that hold counts, amounts and timestamps are
    integers here ([Z]); [NaN] and fractional values are not represented.
    The database is always reachable: a Prisma call fails only where the
    addressed row does not exist. *)

From Stdlib Require Import ZArith Lia Sorted Permutation.
From stdpp Require Import base decidable option numbers list strings pretty sorting.

Local Open Scope Z_scope.

(** ** Generic helpers *)

(** A stable sort (what ECMAScript 2019 guarantees for [Array.prototype.sort]
    and what the model uses for an SQL [ORDER BY]): insertion from the right,
    an element staying in front of the later elements it ties with. *)
Section stable_sort.
Context {A : Type} (leb : A → A → bool).

Fixpoint insertSorted (x : A) (l : list A) : list A :=
  match l with
  | [] => [x]
  | y :: l' => if leb x y then x :: y :: l' else y :: insertSorted x l'
  end.

Fixpoint stableSort (l : list A) : list A :=
  match l with
  | [] => []
  | x :: l' => insertSorted x (stableSort l')
  end.

(** The order a comparison function stands for. *)
Definition lebRel : relation A := λ x y, leb x y = true.
End stable_sort.

(** [Array.prototype.slice(0, end)] for an integer [end]: a negative [end]
    counts from the end of the array. *)
Definition jsSlice0 {A : Type} (end_ : Z) (l : list A) : list A :=
  if 0 <=? end_ then take (Z.to_nat end_) l
  else take (Z.to_nat (Z.of_nat (length l) + end_)) l.

(** Prisma's [take]: a positive value takes from the beginning of the
    ordered result, a negative value from its end. *)
Definition prismaTake {A : Type} (n : Z) (l : list A) : list A :=
  if 0 <=? n then take (Z.to_nat n) l
  else drop (length l - Z.to_nat (- n))%nat l.

(** [prisma.<model>.update({ where: <unique>, data })]: the first row that
    satisfies [P] is replaced by its image under [f]; the updated row and
    the new table are returned, [None] when no row matches (Prisma rejects
    with "record to update not found"). *)
Fixpoint updateWhere {A : Type} (P : A → bool) (f : A → A) (l : list A)
  : option (A * list A) :=
  match l with
  | [] => None
  | x :: l' =>
      if P x then Some (f x, f x :: l')
      else match updateWhere P f l' with
           | Some (y, l'') => Some (y, x :: l'')
           | None => None
           end
  end.

(** ** Data model *)

(** Modelled from the spec: the [CandidateStatus] enumeration of
    @prisma/client is generated from the Prisma schema, which is not part of
    the sources at hand. The spec describes it as "an approval flag gating
    ranking eligibility"; the code only ever compares against [APPROVED]. *)
Inductive CandidateStatus := CS_PENDING | CS_APPROVED.

(** Modelled from the spec: the [PaymentStatus] enumeration of
    @prisma/client, "a status in {PENDING, COMPLETED, FAILED}". *)
Inductive PaymentStatus := PENDING | COMPLETED | FAILED.

Global Instance CandidateStatus_eq_dec : EqDecision CandidateStatus.
Proof. solve_decision. Defined.
Global Instance PaymentStatus_eq_dec : EqDecision PaymentStatus.
Proof. solve_decision. Defined.

(** A row of the [candidate] table (the columns the code reads or writes). *)
Module Candidate.
Record t := mk {
  id : string;
  name : string;
  country : string;
  city : string;
  videoUrl : string;
  thumbnailUrl : option string;
  totalVotes : Z;
  totalRevenue : Z;
  viewCount : Z;
  shareCount : Z;
  status : CandidateStatus;
  createdAt : Z
}.
End Candidate.

(** A row of the [vote] table. *)
Module Vote.
Record t := mk {
  id : string;
  candidateId : string;
  amount : Z;
  paymentStatus : PaymentStatus;
  providerTxId : option string;
  paidAt : option Z;
  isVerified : bool;
  verifiedAt : option Z
}.
End Vote.

(** A row of the [transaction] table; at most one per vote. *)
Module Transaction.
Record t := mk {
  id : string;
  voteId : string;
  status : PaymentStatus;
  webhookPayload : option string
}.
End Transaction.

(** [interface LeaderboardEntry]; [voteChange] and [rankChange] are the two
    optional fields. *)
Record LeaderboardEntry := mkEntry {
  rank : Z;
  candidateId : string;
  name : string;
  country : string;
  city : string;
  videoUrl : string;
  thumbnailUrl : string;
  totalVotes : Z;
  totalRevenue : Z;
  viewCount : Z;
  shareCount : Z;
  voteChange : option Z;
  rankChange : option Z
}.

(** [interface LeaderboardStats] *)
Record LeaderboardStats := mkStats {
  totalCandidates : Z;
  statsTotalVotes : Z;
  statsTotalRevenue : Z;
  statsLastUpdate : Z
}.

(** A message sent with [server.emit('leaderboard:update', ...)]. *)
Record UpdateMessage := mkUpdate {
  msgLeaderboard : list LeaderboardEntry;
  msgStats : LeaderboardStats;
  msgTimestamp : Z
}.

(** The store and the state of the two services. [now] is the value read by
    [new Date()]. *)
Record World := mkWorld {
  candidates : list Candidate.t;
  votes : list Vote.t;
  transactions : list Transaction.t;
  cachedLeaderboard : list LeaderboardEntry;
  lastUpdate : Z;
  gatewayInjected : bool;
  emitted : list UpdateMessage;
  now : Z
}.

Definition setCache (lb : list LeaderboardEntry) (w : World) : World :=
  {| candidates := candidates w; votes := votes w;
     transactions := transactions w;
     cachedLeaderboard := lb; lastUpdate := now w;
     gatewayInjected := gatewayInjected w; emitted := emitted w;
     now := now w |}.

Definition emit (m : UpdateMessage) (w : World) : World :=
  {| candidates := candidates w; votes := votes w;
     transactions := transactions w;
     cachedLeaderboard := cachedLeaderboard w; lastUpdate := lastUpdate w;
     gatewayInjected := gatewayInjected w; emitted := emitted w ++ [m];
     now := now w |}.

(** ** LeaderboardService *)

(** [where: { status: CandidateStatus.APPROVED }] *)
Definition whereApproved (cs : list Candidate.t) : list Candidate.t :=
  filter (λ c, Candidate.status c = CS_APPROVED) cs.

(** [orderBy: [{totalVotes:'desc'}, {totalRevenue:'desc'}, {createdAt:'asc'}]]:
    [orderBy_leb a b] holds when [a] may stand in front of [b]. *)
Definition orderBy_leb (a b : Candidate.t) : bool :=
  if Candidate.totalVotes b <? Candidate.totalVotes a then true
  else if Candidate.totalVotes a <? Candidate.totalVotes b then false
  else if Candidate.totalRevenue b <? Candidate.totalRevenue a then true
  else if Candidate.totalRevenue a <? Candidate.totalRevenue b then false
  else Candidate.createdAt a <=? Candidate.createdAt b.

(** [a] may stand in front of [b]: more votes, or as many votes and more
    revenue, or as many of both and not created later. *)
Definition rankedBefore (a b : Candidate.t) : Prop :=
  Candidate.totalVotes a > Candidate.totalVotes b
  ∨ (Candidate.totalVotes a = Candidate.totalVotes b
     ∧ (Candidate.totalRevenue a > Candidate.totalRevenue b
        ∨ (Candidate.totalRevenue a = Candidate.totalRevenue b
           ∧ Candidate.createdAt a <= Candidate.createdAt b))).

(** The approved candidates in ranking order (the query without [take]).
    The [orderBy] has no key after [createdAt]: among rows that tie on all
    three keys the database is free, and the table order kept here is one
    of the orders it may return. *)
Definition rankedApproved (cs : list Candidate.t) : list Candidate.t :=
  stableSort orderBy_leb (whereApproved cs).

(** [prisma.candidate.findMany({ where: {status: APPROVED}, orderBy, take })] *)
Definition findManyApproved (limit : Z) (cs : list Candidate.t)
  : list Candidate.t :=
  prismaTake limit (rankedApproved cs).

(** [prisma.candidate.count({ where: {status: APPROVED} })] *)
Definition countApproved (cs : list Candidate.t) : Z :=
  Z.of_nat (length (whereApproved cs)).

(** [cachedLeaderboard.find(entry => entry.candidateId === id)] *)
Definition findEntry (cid : string) (lb : list LeaderboardEntry)
  : option LeaderboardEntry :=
  snd <$> list_find (λ e, candidateId e = cid) lb.

(** The callback of [candidates.map((candidate, index) => ...)] in
    [getLeaderboard]. *)
Definition toEntry (cache : list LeaderboardEntry) (index : nat)
    (c : Candidate.t) : LeaderboardEntry :=
  let previousEntry := findEntry (Candidate.id c) cache in
  {| rank := Z.of_nat index + 1;
     candidateId := Candidate.id c;
     name := Candidate.name c;
     country := Candidate.country c;
     city := Candidate.city c;
     videoUrl := Candidate.videoUrl c;
     thumbnailUrl := default EmptyString (Candidate.thumbnailUrl c);
     totalVotes := Candidate.totalVotes c;
     totalRevenue := Candidate.totalRevenue c;
     viewCount := Candidate.viewCount c;
     shareCount := Candidate.shareCount c;
     voteChange :=
       Some (match previousEntry with
             | Some p => Candidate.totalVotes c - totalVotes p
             | None => 0
             end);
     rankChange :=
       Some (match previousEntry with
             | Some p => rank p - (Z.of_nat index + 1)
             | None => 0
             end) |}.

(** [getLeaderboard(limit)]: the fresh ranking and the world with the cache
    replaced by it. *)
Definition getLeaderboard (limit : Z) (w : World)
  : list LeaderboardEntry * World :=
  let found := findManyApproved limit (candidates w) in
  let leaderboard := imap (toEntry (cachedLeaderboard w)) found in
  (leaderboard, setCache leaderboard w).

(** [getTopCandidates(limit)] *)
Definition getTopCandidates (limit : Z) (w : World)
  : list LeaderboardEntry * World :=
  let '(leaderboard, w') := getLeaderboard 100 w in
  (jsSlice0 limit leaderboard, w').

(** The result of [getCandidateRank]. *)
Record CandidateRank := mkCandidateRank {
  entry : option LeaderboardEntry;
  total : Z
}.

(** [getCandidateRank(candidateId)] *)
Definition getCandidateRank (cid : string) (w : World)
  : CandidateRank * World :=
  let '(leaderboard, w') := getLeaderboard 100 w in
  let entry := findEntry cid leaderboard in
  let total := countApproved (candidates w') in
  ({| entry := entry; total := total |}, w').

(** [getStats()]: [_count] and [_sum] over the approved candidates; an empty
    sum ([null || 0]) is 0. *)
Definition getStats (w : World) : LeaderboardStats :=
  let approved := whereApproved (candidates w) in
  {| totalCandidates := Z.of_nat (length approved);
     statsTotalVotes := foldr Z.add 0 (Candidate.totalVotes <$> approved);
     statsTotalRevenue := foldr Z.add 0 (Candidate.totalRevenue <$> approved);
     statsLastUpdate := lastUpdate w |}.

(** [getCachedLeaderboard()] *)
Definition getCachedLeaderboard (w : World) : list LeaderboardEntry :=
  cachedLeaderboard w.

(** [refreshLeaderboard()] *)
Definition refreshLeaderboard (w : World) : list LeaderboardEntry * World :=
  getLeaderboard 100 w.

(** A pair reported by [getTightRaces]. *)
Record TightRace := mkRace {
  candidate1 : LeaderboardEntry;
  candidate2 : LeaderboardEntry;
  voteDifference : Z
}.

(** The [for] loop of [getTightRaces], from index [i] with the pairs pushed
    so far; [fuel] bounds the number of iterations. *)
Fixpoint tightRacesLoop (leaderboard : list LeaderboardEntry) (limit : Z)
    (fuel i : nat) (tightRaces : list TightRace) : list TightRace :=
  match fuel with
  | O => tightRaces
  | S fuel' =>
      if (Z.of_nat i <? Z.of_nat (length leaderboard) - 1)
         && (Z.of_nat (length tightRaces) <? limit)
      then
        match leaderboard !! i, leaderboard !! S i with
        | Some a, Some b =>
            let voteDiff := totalVotes a - totalVotes b in
            tightRacesLoop leaderboard limit fuel' (S i)
              (if (0 <? voteDiff) && (voteDiff <=? 10)
               then tightRaces ++ [mkRace a b voteDiff]
               else tightRaces)
        | _, _ => tightRaces
        end
      else tightRaces
  end.

(** [getTightRaces(limit)]; the loop runs at most [length - 1] times. *)
Definition getTightRaces (limit : Z) (w : World) : list TightRace * World :=
  let '(leaderboard, w') := getLeaderboard 100 w in
  (tightRacesLoop leaderboard limit (length leaderboard) 0 [], w').

(** [entry.voteChange && entry.voteChange > 0] *)
Definition isRising (e : LeaderboardEntry) : bool :=
  match voteChange e with
  | Some v => negb (v =? 0) && (0 <? v)
  | None => false
  end.

(** The comparator [(a, b) => (b.voteChange || 0) - (a.voteChange || 0)]. *)
Definition risingCompare (a b : LeaderboardEntry) : Z :=
  default 0 (voteChange b) - default 0 (voteChange a).

(** [a] stays in front of [b] when the comparator is not positive. *)
Definition rising_leb (a b : LeaderboardEntry) : bool :=
  risingCompare a b <=? 0.

(** [getRisingStars(limit)] *)
Definition getRisingStars (limit : Z) (w : World)
  : list LeaderboardEntry * World :=
  let '(leaderboard, w') := getLeaderboard 100 w in
  (jsSlice0 limit
     (stableSort rising_leb (filter (λ e, isRising e = true) leaderboard)),
   w').

(** ** LeaderboardGateway *)

(** [broadcastLeaderboardUpdate()]: one recompute pass followed by the
    fan-out. *)
Definition broadcastLeaderboardUpdate (w : World) : World :=
  let '(leaderboard, w1) := refreshLeaderboard w in
  let stats := getStats w1 in
  emit {| msgLeaderboard := leaderboard; msgStats := stats;
          msgTimestamp := now w1 |} w1.

(** [triggerUpdate()] *)
Definition triggerUpdate (w : World) : World :=
  broadcastLeaderboardUpdate w.

(** ** VotesService.confirmPayment *)

(** The outcome of an [async] method: its promise resolves with a value or
    rejects (a Prisma [update] that finds no row). *)
Inductive Outcome (A : Type) :=
  | Returned (a : A)
  | Rejected.
Arguments Returned {A} a.
Arguments Rejected {A}.

(** Store-passing computations that stop at the first rejection; the writes
    made before it stay (the method uses no database transaction). *)
Definition M (A : Type) : Type := World → Outcome A * World.

Definition ret {A : Type} (a : A) : M A := λ w, (Returned a, w).

Definition bind {A B : Type} (m : M A) (k : A → M B) : M B :=
  λ w, match m w with
       | (Returned a, w') => k a w'
       | (Rejected, w') => (Rejected, w')
       end.

Notation "'let!' x ':=' m 'in' k" := (bind m (λ x, k))
  (at level 10, x pattern, m at level 100, k at level 200).

(** [new Date()] *)
Definition newDate : M Z := λ w, (Returned (now w), w).

(** A vote as returned with [include: { candidate: true, transaction: true }]. *)
Record FoundVote := mkFoundVote {
  row : Vote.t;
  candidate : option Candidate.t;
  transaction : option Transaction.t
}.

(** What [confirmPayment] resolves with besides [null]: the vote found at
    step 1 with its relations, or the row returned by [vote.update]. *)
Inductive VoteResult :=
  | ExistingVote (v : FoundVote)
  | UpdatedVote (v : Vote.t).

Definition setVotes (vs : list Vote.t) (w : World) : World :=
  {| candidates := candidates w; votes := vs;
     transactions := transactions w;
     cachedLeaderboard := cachedLeaderboard w; lastUpdate := lastUpdate w;
     gatewayInjected := gatewayInjected w; emitted := emitted w;
     now := now w |}.

Definition setTransactions (ts : list Transaction.t) (w : World) : World :=
  {| candidates := candidates w; votes := votes w;
     transactions := ts;
     cachedLeaderboard := cachedLeaderboard w; lastUpdate := lastUpdate w;
     gatewayInjected := gatewayInjected w; emitted := emitted w;
     now := now w |}.

Definition setCandidates (cs : list Candidate.t) (w : World) : World :=
  {| candidates := cs; votes := votes w;
     transactions := transactions w;
     cachedLeaderboard := cachedLeaderboard w; lastUpdate := lastUpdate w;
     gatewayInjected := gatewayInjected w; emitted := emitted w;
     now := now w |}.

(** The first vote whose [providerTxId] is the given reference.
    [findFirst] has no [orderBy]: when several votes carry the reference the
    database is free in the one it returns, and the first in table order is
    one of them; the lookup is determined where one vote carries it. *)
Definition findVote (providerTxId : string) (vs : list Vote.t)
  : option Vote.t :=
  snd <$> list_find (λ v, Vote.providerTxId v = Some providerTxId) vs.

(** The candidate with the given id. *)
Definition findCandidate (cid : string) (cs : list Candidate.t)
  : option Candidate.t :=
  snd <$> list_find (λ c, Candidate.id c = cid) cs.

(** The transaction attached to the given vote. *)
Definition findTransaction (vid : string) (ts : list Transaction.t)
  : option Transaction.t :=
  snd <$> list_find (λ t, Transaction.voteId t = vid) ts.

(** [prisma.vote.findFirst({ where: { providerTxId }, include })] *)
Definition voteFindFirst (providerTxId : string) : M (option FoundVote) :=
  λ w, (Returned
          ((λ v, {| row := v;
                    candidate := findCandidate (Vote.candidateId v)
                                   (candidates w);
                    transaction := findTransaction (Vote.id v)
                                     (transactions w) |})
             <$> findVote providerTxId (votes w)), w).

(** [prisma.vote.update({ where: { id }, data })] *)
Definition voteUpdate (vid : string) (data : Vote.t → Vote.t) : M Vote.t :=
  λ w, match updateWhere (λ v, bool_decide (Vote.id v = vid)) data (votes w)
       with
       | Some (v', vs') => (Returned v', setVotes vs' w)
       | None => (Rejected, w)
       end.

(** [prisma.transaction.update({ where: { id }, data })] *)
Definition transactionUpdate (tid : string)
    (data : Transaction.t → Transaction.t) : M Transaction.t :=
  λ w, match updateWhere (λ t, bool_decide (Transaction.id t = tid)) data
               (transactions w) with
       | Some (t', ts') => (Returned t', setTransactions ts' w)
       | None => (Rejected, w)
       end.

(** [prisma.candidate.update({ where: { id }, data })] *)
Definition candidateUpdate (cid : string)
    (data : Candidate.t → Candidate.t) : M Candidate.t :=
  λ w, match updateWhere (λ c, bool_decide (Candidate.id c = cid)) data
               (candidates w) with
       | Some (c', cs') => (Returned c', setCandidates cs' w)
       | None => (Rejected, w)
       end.

(** The [data] of step 3: [undefined] leaves a column as it is. *)
Definition confirmVoteData (status : PaymentStatus) (date : Z) (v : Vote.t)
  : Vote.t :=
  {| Vote.id := Vote.id v;
     Vote.candidateId := Vote.candidateId v;
     Vote.amount := Vote.amount v;
     Vote.paymentStatus := status;
     Vote.providerTxId := Vote.providerTxId v;
     Vote.paidAt :=
       if decide (status = COMPLETED) then Some date else Vote.paidAt v;
     Vote.isVerified := bool_decide (status = COMPLETED);
     Vote.verifiedAt :=
       if decide (status = COMPLETED) then Some date else Vote.verifiedAt v |}.

(** The [data] of step 4: [webhookPayload || {}]. *)
Definition confirmTransactionData (status : PaymentStatus)
    (webhookPayload : option string) (t : Transaction.t) : Transaction.t :=
  {| Transaction.id := Transaction.id t;
     Transaction.voteId := Transaction.voteId t;
     Transaction.status := status;
     Transaction.webhookPayload := Some (default "{}"%string webhookPayload) |}.

(** The [data] of step 5: [totalVotes: {increment: 1}],
    [totalRevenue: {increment: vote.amount}]. *)
Definition incrementData (amount : Z) (c : Candidate.t) : Candidate.t :=
  {| Candidate.id := Candidate.id c;
     Candidate.name := Candidate.name c;
     Candidate.country := Candidate.country c;
     Candidate.city := Candidate.city c;
     Candidate.videoUrl := Candidate.videoUrl c;
     Candidate.thumbnailUrl := Candidate.thumbnailUrl c;
     Candidate.totalVotes := Candidate.totalVotes c + 1;
     Candidate.totalRevenue := Candidate.totalRevenue c + amount;
     Candidate.viewCount := Candidate.viewCount c;
     Candidate.shareCount := Candidate.shareCount c;
     Candidate.status := Candidate.status c;
     Candidate.createdAt := Candidate.createdAt c |}.

(** Step 6: [if (this.leaderboardGateway && ...triggerUpdate)]; neither
    [triggerUpdate] nor the surrounding [try] lets a failure through. *)
Definition notifyLeaderboard : M unit :=
  λ w, if gatewayInjected w then (Returned (), triggerUpdate w)
       else (Returned (), w).

(** Step 4: the transaction attached to the vote, if any, takes the status
    and the payload. *)
Definition updateTransaction (vote : FoundVote) (status : PaymentStatus)
    (webhookPayload : option string) : M unit :=
  match transaction vote with
  | Some t =>
      let! _ := transactionUpdate (Transaction.id t)
                  (confirmTransactionData status webhookPayload) in
      ret ()
  | None => ret ()
  end.

(** Steps 5 and 6: on COMPLETED the candidate is credited and the gateway
    notified. *)
Definition creditCandidate (vote : FoundVote) (status : PaymentStatus)
  : M unit :=
  if decide (status = COMPLETED) then
    let! _ := candidateUpdate (Vote.candidateId (row vote))
                (incrementData (Vote.amount (row vote))) in
    notifyLeaderboard
  else ret ().

(** [confirmPayment(providerTxId, status, webhookPayload)] *)
Definition confirmPayment (providerTxId : string) (status : PaymentStatus)
    (webhookPayload : option string) : M (option VoteResult) :=
  let! found := voteFindFirst providerTxId in
  match found with
  | None => ret None
  | Some vote =>
      if decide (Vote.paymentStatus (row vote) = COMPLETED)
      then ret (Some (ExistingVote vote))
      else
        let! date := newDate in
        let! updatedVote :=
          voteUpdate (Vote.id (row vote)) (confirmVoteData status date) in
        let! _ := updateTransaction vote status webhookPayload in
        let! _ := creditCandidate vote status in
        ret (Some (UpdatedVote updatedVote))
  end.

(** A confirmation as a webhook delivers it. *)
Record Confirmation := mkConfirmation {
  confRef : string;
  confStatus : PaymentStatus;
  confPayload : option string
}.

(** The confirmations of a list handled one at a time, each call running
    to its end before the next starts; a rejected call does not stop the
    later ones. Calls that overlap (a second delivery arriving while the
    first is suspended between its guard and its increment) are not
    represented. *)
Definition deliver (cs : list Confirmation) (w : World) : World :=
  foldl (λ w c, (confirmPayment (confRef c) (confStatus c) (confPayload c) w).2)
        w cs.

(** ** Interleaving of recompute passes

    Node runs one callback at a time; an [async] method gives control back
    only at an [await] of a pending promise. A pass of
    [broadcastLeaderboardUpdate] has two such points: the [findMany] of
    [getLeaderboard] and the [aggregate] of [getStats]. *)

(** What starts a pass: the [setInterval] callback or [triggerUpdate]. *)
Inductive Trigger := PeriodicTick | EventTrigger.

(** A pass that has started and not finished. *)
Inductive Pass :=
  | AwaitingFindMany
  | AwaitingAggregate (leaderboard : list LeaderboardEntry).

Record Runtime := mkRuntime {
  world : World;
  inFlight : list Pass;
  passesStarted : nat
}.

Inductive Event :=
  | Fire (t : Trigger)
  | DbReply (i : nat).

(** Both the interval callback and [triggerUpdate] call
    [broadcastLeaderboardUpdate] at once, without looking at the passes in
    flight; the pass runs up to its [findMany]. *)
Definition fire (t : Trigger) (r : Runtime) : Runtime :=
  {| world := world r;
     inFlight := inFlight r ++ [AwaitingFindMany];
     passesStarted := S (passesStarted r) |}.

(** The database answers the [i]-th pass in flight, which runs up to its
    next [await] or to its end; a query returns the rows of the table as it
    is when the answer arrives, and the callback reads [cachedLeaderboard]
    as it is then. *)
Definition resume (i : nat) (r : Runtime) : Runtime :=
  match inFlight r !! i with
  | None => r
  | Some AwaitingFindMany =>
      let '(leaderboard, w') := getLeaderboard 100 (world r) in
      {| world := w';
         inFlight := <[i := AwaitingAggregate leaderboard]> (inFlight r);
         passesStarted := passesStarted r |}
  | Some (AwaitingAggregate leaderboard) =>
      {| world := emit {| msgLeaderboard := leaderboard;
                          msgStats := getStats (world r);
                          msgTimestamp := now (world r) |} (world r);
         inFlight := delete i (inFlight r);
         passesStarted := passesStarted r |}
  end.

Definition step (r : Runtime) (ev : Event) : Runtime :=
  match ev with
  | Fire t => fire t r
  | DbReply i => resume i r
  end.

Definition run (evs : list Event) (r : Runtime) : Runtime :=
  foldl step r evs.

(** ** Sample data for the scenarios *)

Definition sampleCandidate (cid : string) (nVotes revenue created : Z)
    (st : CandidateStatus) : Candidate.t :=
  {| Candidate.id := cid;
     Candidate.name := cid;
     Candidate.country := "CI";
     Candidate.city := "Abidjan";
     Candidate.videoUrl := "video";
     Candidate.thumbnailUrl := None;
     Candidate.totalVotes := nVotes;
     Candidate.totalRevenue := revenue;
     Candidate.viewCount := 0;
     Candidate.shareCount := 0;
     Candidate.status := st;
     Candidate.createdAt := created |}.

(** A store holding the given candidates and nothing else, with an empty
    cache, as after start-up. *)
Definition storeOf (cs : list Candidate.t) : World :=
  {| candidates := cs; votes := []; transactions := [];
     cachedLeaderboard := []; lastUpdate := 0;
     gatewayInjected := true; emitted := []; now := 0 |}.

(** [n] approved candidates [c0], [c1], ... with distinct vote counts. *)
Definition crowd (n : nat) : list Candidate.t :=
  (λ i, sampleCandidate ("c" +:+ pretty i) (Z.of_nat (n - i)) 0
          (Z.of_nat i) CS_APPROVED) <$> seq 0 n.

(** The entities of the spec's scenario, created in the order A, B, C. *)
Definition candA : Candidate.t := sampleCandidate "A" 100 10000 1 CS_APPROVED.
Definition candB : Candidate.t := sampleCandidate "B" 100 9500 2 CS_APPROVED.
Definition candC : Candidate.t := sampleCandidate "C" 95 20000 3 CS_APPROVED.

(** ** Characterisations used in the statements *)

(** The pair at positions [k] and [k + 1] of a ranking when the upper entry
    leads by 1 to 10 votes. *)
Definition raceAt (lb : list LeaderboardEntry) (k : nat) : option TightRace :=
  match lb !! k, lb !! S k with
  | Some a, Some b =>
      let d := totalVotes a - totalVotes b in
      if (0 <? d) && (d <=? 10) then Some (mkRace a b d) else None
  | _, _ => None
  end.

(** All such pairs of a ranking, by ascending position. *)
Definition tightPairs (lb : list LeaderboardEntry) : list TightRace :=
  omap (raceAt lb) (seq 0 (length lb - 1)).

(** The scenario after one more confirmed vote for C: the store has C at 96
    votes while the snapshot held by the service still shows 95. *)
Definition votedWorld : World :=
  setCandidates
    [candA; candB; sampleCandidate "C" 96 20100 3 CS_APPROVED]
    (getLeaderboard 100 (storeOf [candA; candB; candC])).2.

(** What an entry says about the ranking itself, the deltas left aside. *)
Definition standing (e : LeaderboardEntry) : string * Z * Z * Z :=
  (candidateId e, rank e, totalVotes e, totalRevenue e).

(** A vote for A awaiting its confirmation under the reference [tx-1], with
    its transaction. *)
Definition pendingVote : Vote.t :=
  {| Vote.id := "vote-1"; Vote.candidateId := "A"; Vote.amount := 100;
     Vote.paymentStatus := PENDING; Vote.providerTxId := Some "tx-1"%string;
     Vote.paidAt := None; Vote.isVerified := false;
     Vote.verifiedAt := None |}.

Definition pendingWorld : World :=
  {| candidates := [candA; candB; candC];
     votes := [pendingVote];
     transactions :=
       [{| Transaction.id := "t-1"; Transaction.voteId := "vote-1";
           Transaction.status := PENDING;
           Transaction.webhookPayload := None |}];
     cachedLeaderboard := []; lastUpdate := 0;
     gatewayInjected := true; emitted := []; now := 42 |}.





(** A runtime with no pass in flight. *)
Definition idleRuntime (w : World) : Runtime :=
  {| world := w; inFlight := []; passesStarted := 0 |}.

(** The database answers the oldest pass in flight twice, [n] times over:
    [n] passes run to their end one after the other. *)
Definition drain (n : nat) : list Event :=
  concat (replicate n [DbReply 0; DbReply 0]).

(** C as the store of [votedWorld] has it, its entry in the fresh ranking,
    and the tight race between B and C there. *)
Definition candC96 : Candidate.t := sampleCandidate "C" 96 20100 3 CS_APPROVED.

Definition entryB : LeaderboardEntry :=
  toEntry (cachedLeaderboard votedWorld) 1 candB.

Definition entryC : LeaderboardEntry :=
  toEntry (cachedLeaderboard votedWorld) 2 candC96.

Definition raceBC : TightRace :=
  {| candidate1 := entryB; candidate2 := entryC; voteDifference := 4 |}.

(** The last of the 101 candidates of [crowd 101]. *)
Definition lastOfCrowd : Candidate.t :=
  sampleCandidate "c100" 1 0 100 CS_APPROVED.

(** ** Quantities used in the statements about confirmations *)

(** The sum of a column. *)
Definition sumZ {A : Type} (f : A → Z) (l : list A) : Z :=
  foldr Z.add 0 (f <$> l).

(** The votes that are COMPLETED, their number and the amounts they add up
    to. *)
Definition completedVotes (vs : list Vote.t) : list Vote.t :=
  filter (λ v, Vote.paymentStatus v = COMPLETED) vs.

Definition completedCount (vs : list Vote.t) : Z :=
  Z.of_nat (length (completedVotes vs)).

Definition completedAmount (vs : list Vote.t) : Z :=
  sumZ Vote.amount (completedVotes vs).

(** Every vote names a candidate that is on record (the foreign key of the
    [vote] table). *)
Definition votesReferToCandidates (w : World) : Prop :=
  Forall (λ v, Vote.candidateId v ∈ Candidate.id <$> candidates w) (votes w).

(** A vote is flagged verified exactly when it is COMPLETED, and a COMPLETED
    vote carries its two dates. *)
Definition verifiedIffCompleted (v : Vote.t) : Prop :=
  Vote.isVerified v = bool_decide (Vote.paymentStatus v = COMPLETED)
  ∧ (Vote.paymentStatus v = COMPLETED →
     is_Some (Vote.paidAt v) ∧ is_Some (Vote.verifiedAt v)).

(** Two versions of a candidate row that differ in the two counters at
    most, neither of which went down. *)
Definition sameCandidateGrown (c c' : Candidate.t) : Prop :=
  Candidate.id c' = Candidate.id c
  ∧ Candidate.name c' = Candidate.name c
  ∧ Candidate.country c' = Candidate.country c
  ∧ Candidate.city c' = Candidate.city c
  ∧ Candidate.videoUrl c' = Candidate.videoUrl c
  ∧ Candidate.thumbnailUrl c' = Candidate.thumbnailUrl c
  ∧ Candidate.viewCount c' = Candidate.viewCount c
  ∧ Candidate.shareCount c' = Candidate.shareCount c
  ∧ Candidate.status c' = Candidate.status c
  ∧ Candidate.createdAt c' = Candidate.createdAt c
  ∧ Candidate.totalVotes c <= Candidate.totalVotes c'
  ∧ Candidate.totalRevenue c <= Candidate.totalRevenue c'.

(** ** LeaderboardService.getLeaderboardByCountry *)

(** [where: { status: CandidateStatus.APPROVED, country }] *)
Definition whereApprovedIn (ctry : string) (cs : list Candidate.t)
  : list Candidate.t :=
  filter (λ c, Candidate.status c = CS_APPROVED ∧ Candidate.country c = ctry)
         cs.

(** The callback of [candidates.map] in [getLeaderboardByCountry]: the two
    optional fields are left out. *)
Definition toCountryEntry (index : nat) (c : Candidate.t) : LeaderboardEntry :=
  {| rank := Z.of_nat index + 1;
     candidateId := Candidate.id c;
     name := Candidate.name c;
     country := Candidate.country c;
     city := Candidate.city c;
     videoUrl := Candidate.videoUrl c;
     thumbnailUrl := default EmptyString (Candidate.thumbnailUrl c);
     totalVotes := Candidate.totalVotes c;
     totalRevenue := Candidate.totalRevenue c;
     viewCount := Candidate.viewCount c;
     shareCount := Candidate.shareCount c;
     voteChange := None;
     rankChange := None |}.

(** [getLeaderboardByCountry(country, limit)]; the service state is neither
    read nor written. *)
Definition getLeaderboardByCountry (ctry : string) (limit : Z) (w : World)
  : list LeaderboardEntry :=
  imap toCountryEntry
    (prismaTake limit
       (stableSort orderBy_leb (whereApprovedIn ctry (candidates w)))).

(** What an entry copies from the candidate row, the rank left aside. *)
Definition tally (e : LeaderboardEntry) : string * Z * Z :=
  (candidateId e, totalVotes e, totalRevenue e).

(** Two more candidates of the scenario's store, from another country. *)
Definition candD : Candidate.t :=
  {| Candidate.id := "D"; Candidate.name := "D"; Candidate.country := "SN";
     Candidate.city := "Dakar"; Candidate.videoUrl := "video";
     Candidate.thumbnailUrl := None; Candidate.totalVotes := 98;
     Candidate.totalRevenue := 9800; Candidate.viewCount := 0;
     Candidate.shareCount := 0; Candidate.status := CS_APPROVED;
     Candidate.createdAt := 4 |}.

Definition candE : Candidate.t :=
  {| Candidate.id := "E"; Candidate.name := "E"; Candidate.country := "SN";
     Candidate.city := "Dakar"; Candidate.videoUrl := "video";
     Candidate.thumbnailUrl := None; Candidate.totalVotes := 500;
     Candidate.totalRevenue := 50000; Candidate.viewCount := 0;
     Candidate.shareCount := 0; Candidate.status := CS_PENDING;
     Candidate.createdAt := 5 |}.

Definition mixedWorld : World :=
  storeOf [candE; candC; candD; candB; candA].

(** ** LeaderboardController.refreshLeaderboard *)

(** [POST /leaderboard/refresh]: the service refreshes, then the gateway is
    told to update; the [data] of the response is the first ranking. *)
Definition controllerRefreshLeaderboard (w : World)
  : list LeaderboardEntry * World :=
  let '(leaderboard, w1) := refreshLeaderboard w in
  (leaderboard, triggerUpdate w1).

(** ** LeaderboardGateway: connections, timer and requests *)

(** What [client.emit] sends to one socket. *)
Inductive ClientMessage :=
  | LeaderboardInitial (leaderboard : list LeaderboardEntry)
      (stats : LeaderboardStats) (timestamp : Z)
  | CandidateRankResponse (cid : string) (result : CandidateRank)
      (timestamp : Z)
  | TopResponse (limit : Z) (found : list LeaderboardEntry) (timestamp : Z)
  | ByCountryResponse (ctry : string) (leaderboard : list LeaderboardEntry)
      (timestamp : Z).

(** The gateway with the service it holds. [activeIntervals] is the set of
    interval timers the runtime keeps going, [nextHandle] the handle the
    next [setInterval] returns, [outbox] the messages sent to single
    sockets (socket id first), oldest first. *)
Record Gateway := mkGateway {
  service : World;
  connectedClients : Z;
  updateInterval : option nat;
  activeIntervals : list nat;
  nextHandle : nat;
  outbox : list (string * ClientMessage)
}.

Definition withService (w : World) (g : Gateway) : Gateway :=
  {| service := w; connectedClients := connectedClients g;
     updateInterval := updateInterval g;
     activeIntervals := activeIntervals g; nextHandle := nextHandle g;
     outbox := outbox g |}.

Definition clientEmit (client : string) (m : ClientMessage) (g : Gateway)
  : Gateway :=
  {| service := service g; connectedClients := connectedClients g;
     updateInterval := updateInterval g;
     activeIntervals := activeIntervals g; nextHandle := nextHandle g;
     outbox := outbox g ++ [(client, m)] |}.

(** [clearInterval(handle)] *)
Definition clearInterval (h : nat) (g : Gateway) : Gateway :=
  {| service := service g; connectedClients := connectedClients g;
     updateInterval := updateInterval g;
     activeIntervals := filter (λ x, x ≠ h) (activeIntervals g);
     nextHandle := nextHandle g; outbox := outbox g |}.

(** [this.updateInterval = setInterval(..., 10000)] *)
Definition setUpdateInterval (g : Gateway) : Gateway :=
  {| service := service g; connectedClients := connectedClients g;
     updateInterval := Some (nextHandle g);
     activeIntervals := activeIntervals g ++ [nextHandle g];
     nextHandle := S (nextHandle g); outbox := outbox g |}.

(** [startAutoUpdates()] *)
Definition startAutoUpdates (g : Gateway) : Gateway :=
  let g1 := match updateInterval g with
            | Some h => clearInterval h g
            | None => g
            end in
  setUpdateInterval g1.

(** [stopAutoUpdates()] *)
Definition stopAutoUpdates (g : Gateway) : Gateway :=
  match updateInterval g with
  | Some h =>
      let g1 := clearInterval h g in
      {| service := service g1; connectedClients := connectedClients g1;
         updateInterval := None;
         activeIntervals := activeIntervals g1; nextHandle := nextHandle g1;
         outbox := outbox g1 |}
  | None => g
  end.

(** [afterInit(server)] *)
Definition afterInit (g : Gateway) : Gateway := startAutoUpdates g.

(** [sendLeaderboardToClient(client)]; with the store always reachable the
    [catch] branch is never taken. *)
Definition sendLeaderboardToClient (client : string) (g : Gateway) : Gateway :=
  let '(leaderboard, w1) := getLeaderboard 100 (service g) in
  let stats := getStats w1 in
  clientEmit client (LeaderboardInitial leaderboard stats (now w1))
    (withService w1 g).

(** [handleConnection(client)]; the send is started without being awaited
    and runs here at once. *)
Definition handleConnection (client : string) (g : Gateway) : Gateway :=
  sendLeaderboardToClient client
    {| service := service g; connectedClients := connectedClients g + 1;
       updateInterval := updateInterval g;
       activeIntervals := activeIntervals g; nextHandle := nextHandle g;
       outbox := outbox g |}.

(** [handleDisconnect(client)] *)
Definition handleDisconnect (client : string) (g : Gateway) : Gateway :=
  {| service := service g; connectedClients := connectedClients g - 1;
     updateInterval := updateInterval g;
     activeIntervals := activeIntervals g; nextHandle := nextHandle g;
     outbox := outbox g |}.

(** [handleRefresh(client)] *)
Definition handleRefresh (client : string) (g : Gateway) : Gateway :=
  sendLeaderboardToClient client g.

(** [handleCandidateRank(data, client)] *)
Definition handleCandidateRank (cid : string) (client : string) (g : Gateway)
  : Gateway :=
  let '(result, w1) := getCandidateRank cid (service g) in
  clientEmit client (CandidateRankResponse cid result (now w1))
    (withService w1 g).

(** [data.limit || fallback] for an optional number: a missing limit and a
    limit of 0 both give the fallback. *)
Definition limitOr (fallback : Z) (limit : option Z) : Z :=
  match limit with
  | Some n => if n =? 0 then fallback else n
  | None => fallback
  end.

(** [handleTopRequest(data, client)] *)
Definition handleTopRequest (dataLimit : option Z) (client : string)
    (g : Gateway) : Gateway :=
  let limit := limitOr 10 dataLimit in
  let '(topCandidates, w1) := getTopCandidates limit (service g) in
  clientEmit client (TopResponse limit topCandidates (now w1))
    (withService w1 g).

(** [handleByCountry(data, client)] *)
Definition handleByCountry (ctry : string) (dataLimit : option Z)
    (client : string) (g : Gateway) : Gateway :=
  let limit := limitOr 20 dataLimit in
  let leaderboard := getLeaderboardByCountry ctry limit (service g) in
  clientEmit client (ByCountryResponse ctry leaderboard (now (service g))) g.

(** What a socket does to the gateway. *)
Inductive SocketEvent :=
  | Connect (client : string)
  | Disconnect (client : string)
  | Refresh (client : string)
  | AskRank (client : string) (cid : string)
  | AskTop (client : string) (dataLimit : option Z)
  | AskCountry (client : string) (ctry : string) (dataLimit : option Z).

Definition handle (g : Gateway) (ev : SocketEvent) : Gateway :=
  match ev with
  | Connect c => handleConnection c g
  | Disconnect c => handleDisconnect c g
  | Refresh c => handleRefresh c g
  | AskRank c cid => handleCandidateRank cid c g
  | AskTop c l => handleTopRequest l c g
  | AskCountry c ctry l => handleByCountry ctry l c g
  end.

Definition handleAll (evs : list SocketEvent) (g : Gateway) : Gateway :=
  foldl handle g evs.

(** The socket addressed by each event that is answered (a disconnection
    is not). *)
Definition answered (ev : SocketEvent) : list string :=
  match ev with
  | Connect c | Refresh c | AskRank c _ | AskTop c _ | AskCountry c _ _ => [c]
  | Disconnect _ => []
  end.

(** +1 for a connection, -1 for a disconnection. *)
Definition clientDelta (ev : SocketEvent) : Z :=
  match ev with
  | Connect _ => 1
  | Disconnect _ => -1
  | _ => 0
  end.

(** Calls to the two timer methods. *)
Inductive TimerCall := CallStart | CallStop.

Definition timerCall (g : Gateway) (c : TimerCall) : Gateway :=
  match c with
  | CallStart => startAutoUpdates g
  | CallStop => stopAutoUpdates g
  end.

(** A gateway as constructed: no client, no timer. *)
Definition newGateway (w : World) : Gateway :=
  {| service := w; connectedClients := 0; updateInterval := None;
     activeIntervals := []; nextHandle := 0; outbox := [] |}.

(** ** VotesService.findOne and checkPaymentStatus *)

(** The two exceptions the votes service throws. *)
Inductive HttpException :=
  | NotFoundException (message : string)
  | BadRequestException (message : string).

(** [findOne(id)]: [findUnique] by id with the relations, or
    NotFoundException. *)
Definition findOne (vid : string) (w : World) : HttpException + FoundVote :=
  match list_find (λ v, Vote.id v = vid) (votes w) with
  | Some (_, v) =>
      inr {| row := v;
             candidate := findCandidate (Vote.candidateId v) (candidates w);
             transaction := findTransaction (Vote.id v) (transactions w) |}
  | None => inl (NotFoundException "Vote introuvable")
  end.

(** The values of the [PaymentStatus] enumeration are its names. *)
Definition statusName (st : PaymentStatus) : string :=
  match st with
  | PENDING => "PENDING"
  | COMPLETED => "COMPLETED"
  | FAILED => "FAILED"
  end.

Definition parseStatus (s : string) : option PaymentStatus :=
  if decide (s = "PENDING"%string) then Some PENDING
  else if decide (s = "COMPLETED"%string) then Some COMPLETED
  else if decide (s = "FAILED"%string) then Some FAILED
  else None.

(** [confirmPayment] as [checkPaymentStatus] calls it, with a string cast to
    [PaymentStatus] unchecked. A string that is no member of the
    enumeration passes the lookup and the COMPLETED guard like any status
    and makes [vote.update] reject before it writes (Prisma validates the
    data first). *)
Definition confirmPaymentCast (providerTxId : string) (status : string)
    (webhookPayload : option string) : M (option VoteResult) :=
  match parseStatus status with
  | Some st => confirmPayment providerTxId st webhookPayload
  | None =>
      let! found := voteFindFirst providerTxId in
      match found with
      | None => ret None
      | Some vote =>
          if decide (Vote.paymentStatus (row vote) = COMPLETED)
          then ret (Some (ExistingVote vote))
          else λ w, (Rejected, w)
      end
  end.

(** What [checkPaymentStatus] resolves with: the vote as found, or what
    [confirmPayment] resolved with. *)
Inductive CheckResult :=
  | StatusUnchanged (vote : FoundVote)
  | StatusConfirmed (result : option VoteResult).

(** [checkPaymentStatus(id)]. [toUpperCase] stands for
    [String.prototype.toUpperCase]; [answer] is the [status] field of what
    [paymentsService.getTransactionStatus] resolves with, [None] when that
    call rejects. An empty [providerTxId] is as good as none. *)
Definition checkPaymentStatus (toUpperCase : string → string) (vid : string)
    (answer : option string) (w : World)
  : (HttpException + CheckResult) * World :=
  match findOne vid w with
  | inl e => (inl e, w)
  | inr vote =>
      match Vote.providerTxId (row vote) with
      | None =>
          (inl (BadRequestException
                  "Aucune référence de paiement pour ce vote"), w)
      | Some ref =>
          if decide (ref = EmptyString) then
            (inl (BadRequestException
                    "Aucune référence de paiement pour ce vote"), w)
          else
            match answer with
            | None =>
                (inl (BadRequestException
                        "Impossible de vérifier le statut du paiement"), w)
            | Some status =>
                if decide (toUpperCase status
                           ≠ statusName (Vote.paymentStatus (row vote)))
                then
                  match confirmPaymentCast ref (toUpperCase status)
                          (Some status) w with
                  | (Returned result, w') =>
                      (inr (StatusConfirmed result), w')
                  | (Rejected, w') =>
                      (inl (BadRequestException
                              "Impossible de vérifier le statut du paiement"),
                       w')
                  end
                else (inr (StatusUnchanged vote), w)
            end
      end
  end.

(** Upper case for the letters a to z, as [toUpperCase] has it on them. *)
Definition upperAscii (a : Ascii.ascii) : Ascii.ascii :=
  let n := Ascii.nat_of_ascii a in
  if ((97 <=? n) && (n <=? 122))%nat then Ascii.ascii_of_nat (n - 32) else a.

Fixpoint upperLatin (s : string) : string :=
  match s with
  | EmptyString => EmptyString
  | String a s' => String (upperAscii a) (upperLatin s')
  end.

(** ** Conditions on the store used in the statements *)


(** No two of the rows tie on all three keys of the [orderBy]. *)
Definition noFullTies (rows : list Candidate.t) : Prop :=
  ∀ a b, a ∈ rows → b ∈ rows →
    Candidate.totalVotes a = Candidate.totalVotes b →
    Candidate.totalRevenue a = Candidate.totalRevenue b →
    Candidate.createdAt a = Candidate.createdAt b →
    a = b.

(** What a query with the [orderBy] may return for the rows [wanted]: the
    same rows, sorted on the three keys. *)
Definition orderedResult (wanted rows : list Candidate.t) : Prop :=
  rows ≡ₚ wanted ∧ StronglySorted rankedBefore rows.

(** The scenario's store after two votes for A and one for C came in since
    the snapshot held by the service was taken. *)
Definition risingWorld : World :=
  setCandidates
    [candA; candB; candC96]
    (getLeaderboard 100
       (storeOf [sampleCandidate "A" 98 9800 1 CS_APPROVED; candB; candC])).2.

(** * Properties *)

(** ** The stable sort *)

Section stable_sort_facts.
Context {A : Type} (leb : A → A → bool).

Lemma insertSorted_Permutation x l : insertSorted leb x l ≡ₚ x :: l.
Proof.
  induction l as [|y l IH]; simpl; [done|].
  destruct (leb x y); [done|].
  rewrite IH. apply Permutation_swap.
Qed.

Lemma stableSort_Permutation l : stableSort leb l ≡ₚ l.
Proof.
  induction l as [|x l IH]; simpl; [done|].
  by rewrite insertSorted_Permutation, IH.
Qed.

Lemma stableSort_length l : length (stableSort leb l) = length l.
Proof. by rewrite stableSort_Permutation. Qed.

Lemma stableSort_elem_of x l : x ∈ stableSort leb l ↔ x ∈ l.
Proof. by rewrite stableSort_Permutation. Qed.

Hypothesis leb_total : ∀ x y, leb x y = false → leb y x = true.
Hypothesis leb_trans : ∀ x y z,
  leb x y = true → leb y z = true → leb x z = true.

Lemma insertSorted_StronglySorted x l :
  StronglySorted (lebRel leb) l →
  StronglySorted (lebRel leb) (insertSorted leb x l).
Proof.
  induction 1 as [|y l Hl IH Hy]; simpl.
  - repeat constructor.
  - destruct (leb x y) eqn:Hxy.
    + constructor; [by constructor|].
      constructor; [done|].
      eapply Forall_impl; [exact Hy|]. intros z Hz. by eapply leb_trans.
    + constructor; [done|].
      rewrite insertSorted_Permutation. constructor; [|done].
      by apply leb_total.
Qed.

Lemma stableSort_StronglySorted l :
  StronglySorted (lebRel leb) (stableSort leb l).
Proof.
  induction l; simpl; [constructor|by apply insertSorted_StronglySorted].
Qed.
End stable_sort_facts.

(** ** The ranking order *)

Lemma orderBy_leb_total a b : orderBy_leb a b = false → orderBy_leb b a = true.
Proof.
  unfold orderBy_leb.
  repeat (case_match; try done); lia.
Qed.

Lemma orderBy_leb_trans a b c :
  orderBy_leb a b = true → orderBy_leb b c = true → orderBy_leb a c = true.
Proof.
  unfold orderBy_leb.
  repeat (case_match; try done); lia.
Qed.

Lemma orderBy_leb_spec a b : orderBy_leb a b = true ↔ rankedBefore a b.
Proof.
  unfold orderBy_leb, rankedBefore.
  repeat case_match; split; intros; try done; lia.
Qed.

(** ** getLeaderboard: ranks, order and deltas *)

Lemma StronglySorted_weaken {A} (R1 R2 : relation A) l :
  (∀ x y, R1 x y → R2 x y) → StronglySorted R1 l → StronglySorted R2 l.
Proof.
  intros HR. induction 1 as [|x l _ IH Hx]; constructor; [done|].
  eapply Forall_impl; [exact Hx|]. intros y. apply HR.
Qed.

Lemma rankedApproved_StronglySorted cs :
  StronglySorted rankedBefore (rankedApproved cs).
Proof.
  unfold rankedApproved.
  eapply StronglySorted_weaken;
    [|apply (stableSort_StronglySorted orderBy_leb);
      [apply orderBy_leb_total|apply orderBy_leb_trans]].
  intros a b. apply orderBy_leb_spec.
Qed.

Lemma rankedApproved_elem_of c cs :
  c ∈ rankedApproved cs ↔ c ∈ cs ∧ Candidate.status c = CS_APPROVED.
Proof.
  unfold rankedApproved, whereApproved.
  rewrite stableSort_elem_of, list_elem_of_filter. tauto.
Qed.

Lemma rankedApproved_length cs :
  Z.of_nat (length (rankedApproved cs)) = countApproved cs.
Proof. unfold rankedApproved, countApproved. by rewrite stableSort_length. Qed.

Lemma prismaTake_sublist {A} (n : Z) (l : list A) : prismaTake n l `sublist_of` l.
Proof.
  unfold prismaTake. case_match; [apply sublist_take|apply sublist_drop].
Qed.

Lemma prismaTake_length {A} (n : Z) (l : list A) :
  0 <= n → Z.of_nat (length (prismaTake n l)) = Z.min n (Z.of_nat (length l)).
Proof.
  intros Hn. unfold prismaTake.
  destruct (Z.leb_spec 0 n); [|lia]. rewrite length_take. lia.
Qed.

Lemma StronglySorted_sublist {A} (R : relation A) l1 l2 :
  l1 `sublist_of` l2 → StronglySorted R l2 → StronglySorted R l1.
Proof.
  induction 1 as [|x l1 l2 Hsub IH|x l1 l2 Hsub IH]; intros Hs.
  - constructor.
  - apply StronglySorted_inv in Hs as [Hs Hx]. constructor; [by apply IH|].
    rewrite Forall_forall in Hx. apply Forall_forall. intros y Hy.
    apply Hx. by eapply elem_of_sublist.
  - apply StronglySorted_inv in Hs as [Hs _]. by apply IH.
Qed.

Lemma getLeaderboard_fst limit w :
  (getLeaderboard limit w).1
  = imap (toEntry (cachedLeaderboard w)) (findManyApproved limit (candidates w)).
Proof. done. Qed.

Lemma getLeaderboard_snd limit w :
  (getLeaderboard limit w).2 = setCache (getLeaderboard limit w).1 w.
Proof. done. Qed.

(** The entry at position [i] is built from the [i]-th row found and carries
    rank [i + 1]. *)
Lemma getLeaderboard_lookup limit w i e :
  (getLeaderboard limit w).1 !! i = Some e ↔
  ∃ c, findManyApproved limit (candidates w) !! i = Some c
       ∧ e = toEntry (cachedLeaderboard w) i c.
Proof.
  rewrite getLeaderboard_fst, list_lookup_imap.
  destruct (findManyApproved limit (candidates w) !! i) as [c|]; simpl.
  - split; [intros [= <-]; eauto|intros (c' & [= <-] & ->); done].
  - split; [done|intros (c' & [=] & _)].
Qed.

Lemma ranks_imap cache (k : nat) (l : list Candidate.t) :
  rank <$> imap (λ i, toEntry cache (k + i)) l
  = seqZ (Z.of_nat k + 1) (Z.of_nat (length l)).
Proof.
  revert k. induction l as [|c l IH]; intros k; [done|].
  rewrite imap_cons, fmap_cons, seqZ_cons by (simpl; lia).
  simpl rank. f_equal; [f_equal; lia|].
  rewrite (imap_ext _ (λ i, toEntry cache (S k + i))).
  - rewrite IH. f_equal; simpl length; lia.
  - intros i x _. simpl. f_equal. lia.
Qed.

Lemma getLeaderboard_ranks limit w :
  rank <$> (getLeaderboard limit w).1
  = seqZ 1 (Z.of_nat (length (getLeaderboard limit w).1)).
Proof.
  rewrite getLeaderboard_fst, length_imap.
  apply (ranks_imap (cachedLeaderboard w) 0).
Qed.

(** C1, as amended: the ranks of a snapshot are exactly 1..N without gap or
    duplicate, where N is the smaller of the requested limit and the number
    of approved candidates in the store; N is the number of approved
    candidates whenever that number does not exceed the limit. *)
Theorem getLeaderboard_ranks_contiguous (limit : Z) (w : World) :
  0 <= limit →
  rank <$> (getLeaderboard limit w).1
  = seqZ 1 (Z.min limit (countApproved (candidates w))).
Proof.
  intros Hlimit. rewrite getLeaderboard_ranks. f_equal.
  rewrite getLeaderboard_fst, length_imap. unfold findManyApproved.
  rewrite prismaTake_length by done. by rewrite rankedApproved_length.
Qed.

Lemma getLeaderboard_ranks_contiguous_witness :
  rank <$> (getLeaderboard 2 (storeOf [candC; candB; candA])).1
  = seqZ 1 (Z.min 2 (countApproved [candC; candB; candA])).
Proof.
  apply (getLeaderboard_ranks_contiguous 2 (storeOf [candC; candB; candA])).
  lia.
Defined.

(** C1 as stated fails: with 101 approved candidates the snapshot of the
    default limit has the ranks 1..100, not 1..101. *)
Lemma getLeaderboard_ranks_not_all_eligible :
  countApproved (candidates (storeOf (crowd 101))) = 101
  ∧ rank <$> (getLeaderboard 100 (storeOf (crowd 101))).1 = seqZ 1 100
  ∧ rank <$> (getLeaderboard 100 (storeOf (crowd 101))).1
    ≠ seqZ 1 (countApproved (candidates (storeOf (crowd 101)))).
Proof.
  split; [by vm_compute|]. split; [by vm_compute|].
  intros H. apply (f_equal length) in H. vm_compute in H. discriminate.
Qed.

Lemma findManyApproved_StronglySorted limit cs :
  StronglySorted rankedBefore (findManyApproved limit cs).
Proof.
  eapply StronglySorted_sublist;
    [apply prismaTake_sublist|apply rankedApproved_StronglySorted].
Qed.

Lemma findManyApproved_elem_of limit cs c :
  c ∈ findManyApproved limit cs → c ∈ cs ∧ Candidate.status c = CS_APPROVED.
Proof.
  intros Hc. apply rankedApproved_elem_of.
  eapply elem_of_sublist; [exact Hc|apply prismaTake_sublist].
Qed.

Lemma scenario_rows cs :
  cs ≡ₚ [candA; candB; candC] →
  findManyApproved 100 cs = [candA; candB; candC].
Proof.
  intros Hperm. symmetry in Hperm.
  apply permutations_Permutation in Hperm.
  repeat (apply elem_of_cons in Hperm as [->|Hperm]; [by vm_compute|]).
  by apply elem_of_nil in Hperm.
Qed.

(** The scenario of the spec, whatever the order of the rows in the table
    and whatever the previous snapshot. *)
Lemma scenario_ranking w :
  candidates w ≡ₚ [candA; candB; candC] →
  (λ e, (candidateId e, rank e)) <$> (getLeaderboard 100 w).1
  = [("A"%string, 1); ("B"%string, 2); ("C"%string, 3)].
Proof.
  intros Hperm. rewrite getLeaderboard_fst, fmap_imap.
  by rewrite (scenario_rows _ Hperm).
Qed.

(** C5: a snapshot lists approved rows of the store sorted by votes
    descending, then revenue descending, then creation time ascending; the
    entry at position i copies the metrics of the i-th row and has rank
    i + 1. For A(100, 10000), B(100, 9500), C(95, 20000) created in that
    order the ranking is A 1, B 2, C 3. *)
Theorem getLeaderboard_sorted_positional :
  (∀ (limit : Z) (w : World),
     ∃ rows : list Candidate.t,
       StronglySorted rankedBefore rows
       ∧ (∀ c, c ∈ rows → c ∈ candidates w ∧ Candidate.status c = CS_APPROVED)
       ∧ length (getLeaderboard limit w).1 = length rows
       ∧ ∀ (i : nat) (e : LeaderboardEntry),
           (getLeaderboard limit w).1 !! i = Some e →
           ∃ c, rows !! i = Some c
                ∧ candidateId e = Candidate.id c
                ∧ totalVotes e = Candidate.totalVotes c
                ∧ totalRevenue e = Candidate.totalRevenue c
                ∧ rank e = Z.of_nat i + 1)
  ∧ (∀ w : World,
       candidates w ≡ₚ [candA; candB; candC] →
       (λ e, (candidateId e, rank e)) <$> (getLeaderboard 100 w).1
       = [("A"%string, 1); ("B"%string, 2); ("C"%string, 3)]).
Proof.
  split; [|apply scenario_ranking].
  intros limit w. exists (findManyApproved limit (candidates w)).
  split; [apply findManyApproved_StronglySorted|].
  split; [intros c; apply findManyApproved_elem_of|].
  split; [by rewrite getLeaderboard_fst, length_imap|].
  intros i e (c & Hc & ->)%getLeaderboard_lookup. by exists c.
Qed.

Lemma getLeaderboard_sorted_positional_witness :
  (λ e, (candidateId e, rank e))
    <$> (getLeaderboard 100 (storeOf [candC; candA; candB])).1
  = [("A"%string, 1); ("B"%string, 2); ("C"%string, 3)].
Proof.
  apply (proj2 getLeaderboard_sorted_positional
           (storeOf [candC; candA; candB])).
  simpl. rewrite (Permutation_swap candA candC [candB]).
  apply Permutation_skip, (Permutation_swap candB candC []).
Defined.


Lemma findEntry_None cid lb :
  findEntry cid lb = None ↔ cid ∉ candidateId <$> lb.
Proof.
  unfold findEntry. rewrite fmap_None, list_find_None, Forall_forall.
  rewrite list_elem_of_fmap. split.
  - intros H (p & -> & Hp). by apply (H p).
  - intros H p Hp Heq. apply H. by exists p.
Qed.



(** ** getTightRaces *)

(** The loop, given fuel for the positions that remain, pushes the tight
    pairs from position [i] on until [limit] pairs are held. *)
Lemma tightRacesLoop_char lb limit fuel i acc :
  (length lb - 1 - i ≤ fuel)%nat →
  tightRacesLoop lb limit fuel i acc
  = acc ++ take (Z.to_nat (limit - Z.of_nat (length acc)))
             (omap (raceAt lb) (seq i (length lb - 1 - i))).
Proof.
  revert i acc. induction fuel as [|fuel IH]; intros i acc Hfuel.
  - replace (length lb - 1 - i)%nat with 0%nat by lia.
    simpl. by rewrite take_nil, app_nil_r.
  - simpl.
    destruct (Z.ltb_spec (Z.of_nat i) (Z.of_nat (length lb) - 1)) as [Hi|Hi];
      simpl.
    2: { replace (length lb - 1 - i)%nat with 0%nat by lia.
         simpl. by rewrite take_nil, app_nil_r. }
    destruct (Z.ltb_spec (Z.of_nat (length acc)) limit) as [Hacc|Hacc].
    2: { replace (Z.to_nat (limit - Z.of_nat (length acc))) with 0%nat by lia.
         by rewrite take_0, app_nil_r. }
    destruct (lookup_lt_is_Some_2 lb i) as [a Ha]; [lia|].
    destruct (lookup_lt_is_Some_2 lb (S i)) as [b Hb]; [lia|].
    rewrite Ha, Hb.
    replace (length lb - 1 - i)%nat with (S (length lb - 1 - S i)) by lia.
    rewrite <- cons_seq. simpl omap. unfold raceAt at 1. rewrite Ha, Hb.
    rewrite IH by lia.
    destruct ((0 <? totalVotes a - totalVotes b)
              && (totalVotes a - totalVotes b <=? 10)); [|done].
    rewrite length_app, <- app_assoc. simpl.
    replace (Z.to_nat (limit - Z.of_nat (length acc)))
      with (S (Z.to_nat (limit - Z.of_nat (length acc + 1)))) by lia.
    done.
Qed.

Lemma getTightRaces_char limit w :
  getTightRaces limit w
  = (take (Z.to_nat limit) (tightPairs (getLeaderboard 100 w).1),
     (getLeaderboard 100 w).2).
Proof.
  unfold getTightRaces. destruct (getLeaderboard 100 w) as [lb w'].
  rewrite tightRacesLoop_char by lia. simpl.
  by rewrite Nat.sub_0_r, Z.sub_0_r.
Qed.

Lemma raceAt_Some lb k r :
  raceAt lb k = Some r →
  lb !! k = Some (candidate1 r) ∧ lb !! S k = Some (candidate2 r)
  ∧ voteDifference r = totalVotes (candidate1 r) - totalVotes (candidate2 r)
  ∧ 0 < voteDifference r <= 10.
Proof.
  unfold raceAt.
  destruct (lb !! k) as [a|], (lb !! S k) as [b|]; try done.
  destruct (Z.ltb_spec 0 (totalVotes a - totalVotes b));
    destruct (Z.leb_spec (totalVotes a - totalVotes b) 10); simpl; try done.
  intros [= <-]. simpl. repeat split; (done || lia).
Qed.

(** With positional ranks the upper ranks of the tight pairs increase. *)
Lemma tightPairs_from_ascending lb i m :
  (∀ k e, lb !! k = Some e → rank e = Z.of_nat k + 1) →
  StronglySorted Z.lt
    ((λ r, rank (candidate1 r)) <$> omap (raceAt lb) (seq i m))
  ∧ Forall (λ r, Z.of_nat i + 1 <= rank (candidate1 r))
      (omap (raceAt lb) (seq i m)).
Proof.
  intros Hrank. revert i. induction m as [|m IH]; intros i.
  - split; constructor.
  - destruct (IH (S i)) as [Hs Hf]. rewrite <- cons_seq. simpl omap.
    assert (Forall (λ r, Z.of_nat i + 1 <= rank (candidate1 r))
              (omap (raceAt lb) (seq (S i) m))) as Hf'.
    { eapply Forall_impl; [exact Hf|]. simpl. intros; lia. }
    destruct (raceAt lb i) as [r|] eqn:Hr; simpl; [|done].
    apply raceAt_Some in Hr as (Ha & _). apply Hrank in Ha.
    split.
    + constructor; [done|]. rewrite Forall_fmap.
      eapply Forall_impl; [exact Hf|]. simpl. intros; lia.
    + constructor; [lia|done].
Qed.

Lemma getLeaderboard_rank_positional limit w k e :
  (getLeaderboard limit w).1 !! k = Some e → rank e = Z.of_nat k + 1.
Proof. by intros (c & _ & ->)%getLeaderboard_lookup. Qed.

(** C7: every pair returned by getTightRaces joins two entries of adjacent
    ranks k and k + 1 of the snapshot whose vote difference d satisfies
    0 < d <= 10; the pairs come by ascending rank, and there are at most
    [limit] of them (none for a limit below 1). *)
Theorem getTightRaces_sound (limit : Z) (w : World) :
  let snapshot := (getLeaderboard 100 w).1 in
  let races := (getTightRaces limit w).1 in
  (∀ r, r ∈ races →
     ∃ k : nat,
       snapshot !! k = Some (candidate1 r)
       ∧ snapshot !! S k = Some (candidate2 r)
       ∧ rank (candidate1 r) = Z.of_nat k + 1
       ∧ rank (candidate2 r) = rank (candidate1 r) + 1
       ∧ voteDifference r
         = totalVotes (candidate1 r) - totalVotes (candidate2 r)
       ∧ 0 < voteDifference r <= 10)
  ∧ StronglySorted Z.lt ((λ r, rank (candidate1 r)) <$> races)
  ∧ Z.of_nat (length races) <= Z.max 0 limit
  ∧ races = take (Z.to_nat limit) (tightPairs snapshot).
Proof.
  intros snapshot races. subst races. rewrite getTightRaces_char. simpl.
  fold snapshot. split; [|split; [|split]].
  - intros r Hr. apply elem_of_take in Hr as (j & Hr%list_elem_of_lookup_2 & _).
    apply list_elem_of_omap in Hr as (k & _ & Hk).
    apply raceAt_Some in Hk as (Ha & Hb & Hd & Hbound). exists k.
    pose proof (getLeaderboard_rank_positional _ _ _ _ Ha) as Hra.
    pose proof (getLeaderboard_rank_positional _ _ _ _ Hb) as Hrb.
    repeat split; (done || lia).
  - rewrite fmap_take. eapply StronglySorted_sublist; [apply sublist_take|].
    apply tightPairs_from_ascending.
    intros k e. apply getLeaderboard_rank_positional.
  - rewrite length_take. lia.
  - done.
Qed.

Lemma getTightRaces_sound_witness :
  ∃ k : nat,
    (getLeaderboard 100 votedWorld).1 !! k = Some (candidate1 raceBC)
    ∧ (getLeaderboard 100 votedWorld).1 !! S k = Some (candidate2 raceBC)
    ∧ rank (candidate1 raceBC) = Z.of_nat k + 1
    ∧ rank (candidate2 raceBC) = rank (candidate1 raceBC) + 1
    ∧ voteDifference raceBC
      = totalVotes (candidate1 raceBC) - totalVotes (candidate2 raceBC)
    ∧ 0 < voteDifference raceBC <= 10.
Proof.
  apply (proj1 (getTightRaces_sound 10 votedWorld) raceBC).
  apply (list_elem_of_lookup_2 _ 0%nat). reflexivity.
Defined.

(** ** getRisingStars *)

Lemma isRising_spec e :
  isRising e = true ↔ ∃ d, voteChange e = Some d ∧ 0 < d.
Proof.
  unfold isRising. destruct (voteChange e) as [v|].
  - destruct (Z.eqb_spec v 0), (Z.ltb_spec 0 v); simpl; split;
      try done; try lia; eauto.
    + by intros (d & [= <-] & ?); lia.
    + by intros (d & [= <-] & ?); lia.
  - split; [done|by intros (d & [=] & _)].
Qed.

Lemma rising_leb_spec a b :
  rising_leb a b = true
  ↔ default 0 (voteChange b) <= default 0 (voteChange a).
Proof. unfold rising_leb, risingCompare. rewrite Z.leb_le. lia. Qed.

Lemma StronglySorted_fmap_2 {A B} (f : A → B) (R : relation B) l :
  StronglySorted (λ x y, R (f x) (f y)) l → StronglySorted R (f <$> l).
Proof.
  induction 1 as [|x l _ IH Hx]; simpl; constructor; [done|].
  by rewrite Forall_fmap.
Qed.

Lemma risingSorted_desc l :
  StronglySorted (λ x y, y <= x)
    ((λ e, default 0 (voteChange e)) <$> stableSort rising_leb l).
Proof.
  apply StronglySorted_fmap_2.
  eapply StronglySorted_weaken;
    [|apply (stableSort_StronglySorted rising_leb)].
  - intros a b. apply rising_leb_spec.
  - intros a b Hab. apply rising_leb_spec.
    assert (¬ rising_leb a b = true) as Hn by (by rewrite Hab).
    rewrite rising_leb_spec in Hn. lia.
  - intros a b c. rewrite !rising_leb_spec. lia.
Qed.

(** C8 as stated fails for a negative limit, which the endpoint passes on
    unchecked: with A and C rising, limit -1 does not cut the answer down
    to the limit but returns all risers except the last. *)
Lemma getRisingStars_negative_limit :
  candidateId <$> (getRisingStars 10 risingWorld).1
  = ["A"%string; "C"%string]
  ∧ candidateId <$> (getRisingStars (-1) risingWorld).1 = ["A"%string]
  ∧ (getRisingStars (-1) risingWorld).1 ≠ []
  ∧ ¬ Z.of_nat (length (getRisingStars (-1) risingWorld).1) <= -1.
Proof.
  split; [by vm_compute|]. split; [by vm_compute|].
  split; [by vm_compute|]. vm_compute. by intros H.
Qed.

(** C8, as amended: for every limit getRisingStars returns only entries of
    the snapshot with voteChange > 0, ordered by voteChange descending: it
    is slice(0, limit) of the list that holds exactly the snapshot's entries
    with voteChange > 0 in that order; that is its first [limit] entries
    (at most [limit] of them) when the limit is not negative, and all but
    its last [-limit] entries when the limit is negative. *)
Theorem getRisingStars_spec (limit : Z) (w : World) :
  let snapshot := (getLeaderboard 100 w).1 in
  let stars := (getRisingStars limit w).1 in
  (∃ rising,
     rising ≡ₚ filter (λ e, isRising e = true) snapshot
     ∧ (∀ e, e ∈ rising ↔ e ∈ snapshot ∧ ∃ d, voteChange e = Some d ∧ 0 < d)
     ∧ StronglySorted (λ x y, y <= x)
         ((λ e, default 0 (voteChange e)) <$> rising)
     ∧ stars = jsSlice0 limit rising
     ∧ (0 <= limit → stars = take (Z.to_nat limit) rising)
     ∧ (limit < 0 →
        stars = take (length rising - Z.to_nat (- limit))%nat rising))
  ∧ StronglySorted (λ x y, y <= x) ((λ e, default 0 (voteChange e)) <$> stars)
  ∧ (∀ e, e ∈ stars → e ∈ snapshot ∧ ∃ d, voteChange e = Some d ∧ 0 < d)
  ∧ (0 <= limit → Z.of_nat (length stars) <= limit).
Proof.
  intros snapshot stars. subst stars. unfold getRisingStars.
  fold (refreshLeaderboard w). unfold refreshLeaderboard.
  destruct (getLeaderboard 100 w) as [lb w'] eqn:Hlb. simpl in snapshot.
  subst snapshot. cbn [fst].
  set (rising := stableSort rising_leb (filter (λ e, isRising e = true) lb)).
  assert (∀ e, e ∈ rising ↔ e ∈ lb ∧ ∃ d, voteChange e = Some d ∧ 0 < d)
    as Hmem.
  { intros e. unfold rising.
    rewrite stableSort_elem_of, list_elem_of_filter, isRising_spec. tauto. }
  assert (∃ n, jsSlice0 limit rising = take n rising
               ∧ (0 <= limit → n = Z.to_nat limit)
               ∧ (limit < 0 → n = (length rising - Z.to_nat (- limit))%nat))
    as (n & Hslice & Hpos & Hneg).
  { unfold jsSlice0. destruct (Z.leb_spec 0 limit); eexists;
      (split; [reflexivity|]); split; intros; lia. }
  split; [|split; [|split]].
  - exists rising. split; [apply stableSort_Permutation|].
    split; [done|]. split; [apply risingSorted_desc|].
    split; [done|]. rewrite Hslice.
    split; intros Hl; [by rewrite (Hpos Hl)|by rewrite (Hneg Hl)].
  - rewrite Hslice, fmap_take.
    eapply StronglySorted_sublist; [apply sublist_take|].
    apply risingSorted_desc.
  - intros e He. apply Hmem. rewrite Hslice in He.
    eapply elem_of_sublist; [exact He|apply sublist_take].
  - intros Hl. rewrite Hslice, (Hpos Hl), length_take. lia.
Qed.

Lemma getRisingStars_spec_witness :
  Z.of_nat (length (getRisingStars 10 risingWorld).1) <= 10
  ∧ ∃ rising,
      (getRisingStars (-1) risingWorld).1
      = take (length rising - Z.to_nat (- -1))%nat rising
      ∧ StronglySorted (λ x y, y <= x)
          ((λ e, default 0 (voteChange e)) <$> rising).
Proof.
  split.
  - apply (getRisingStars_spec 10 risingWorld). lia.
  - destruct (getRisingStars_spec (-1) risingWorld)
      as ((rising & _ & _ & Hsorted & _ & _ & Hneg) & _).
    exists rising. split; [apply Hneg; lia|exact Hsorted].
Defined.

(** ** getCandidateRank *)

Lemma rankedApproved_NoDup cs :
  NoDup (Candidate.id <$> cs) → NoDup (Candidate.id <$> rankedApproved cs).
Proof.
  intros Hnd. unfold rankedApproved.
  rewrite stableSort_Permutation. unfold whereApproved.
  apply (sublist_NoDup _ (Candidate.id <$> cs)); [done|].
  apply fmap_sublist, sublist_filter.
Qed.

Lemma getLeaderboard_ids limit w :
  candidateId <$> (getLeaderboard limit w).1
  = Candidate.id <$> findManyApproved limit (candidates w).
Proof.
  rewrite getLeaderboard_fst, fmap_imap.
  rewrite <- (imap_const Candidate.id). by apply imap_ext.
Qed.

(** C10: getCandidateRank looks the id up among the first 100 entries of
    the ranking only and counts all approved candidates; an approved
    candidate standing at a position after the 100th of the full ranking
    (ids being unique) gets entry = null with a total above 100. *)
Theorem getCandidateRank_beyond_top100 (w : World) (c : Candidate.t) (i : nat) :
  NoDup (Candidate.id <$> candidates w) →
  rankedApproved (candidates w) !! i = Some c →
  (100 ≤ i)%nat →
  let result := (getCandidateRank (Candidate.id c) w).1 in
  entry result = None
  ∧ total result = countApproved (candidates w)
  ∧ 100 < total result
  ∧ Candidate.status c = CS_APPROVED
  ∧ entry result = findEntry (Candidate.id c) (getLeaderboard 100 w).1
  ∧ (length (getLeaderboard 100 w).1 ≤ 100)%nat.
Proof.
  intros Hnd Hc Hi result. subst result. unfold getCandidateRank.
  pose proof (getLeaderboard_ids 100 w) as Hids.
  pose proof (getLeaderboard_snd 100 w) as Hsnd.
  assert (length (getLeaderboard 100 w).1 ≤ 100)%nat as Hlen.
  { rewrite getLeaderboard_fst, length_imap. unfold findManyApproved.
    change (prismaTake 100 ?l) with (take 100 l). rewrite length_take. lia. }
  destruct (getLeaderboard 100 w) as [lb w'] eqn:Hlb. simpl in *. subst w'.
  simpl.
  assert (findEntry (Candidate.id c) lb = None) as Hnone.
  { apply findEntry_None. rewrite Hids. unfold findManyApproved.
    change (prismaTake 100 ?l) with (take 100 l). rewrite fmap_take.
    intros (j & Hj & Hlt)%elem_of_take.
    assert ((Candidate.id <$> rankedApproved (candidates w)) !! i
            = Some (Candidate.id c)) as Hi'.
    { by rewrite list_lookup_fmap, Hc. }
    pose proof (NoDup_lookup _ _ _ _ (rankedApproved_NoDup _ Hnd) Hi' Hj).
    lia. }
  split; [done|]. split; [done|]. split.
  - rewrite <- rankedApproved_length. apply lookup_lt_Some in Hc. lia.
  - split; [|done].
    apply list_elem_of_lookup_2, rankedApproved_elem_of in Hc. tauto.
Qed.

Lemma getCandidateRank_beyond_top100_witness :
  entry (getCandidateRank "c100" (storeOf (crowd 101))).1 = None
  ∧ total (getCandidateRank "c100" (storeOf (crowd 101))).1
    = countApproved (crowd 101)
  ∧ 100 < total (getCandidateRank "c100" (storeOf (crowd 101))).1
  ∧ Candidate.status lastOfCrowd = CS_APPROVED
  ∧ entry (getCandidateRank "c100" (storeOf (crowd 101))).1
    = findEntry "c100" (getLeaderboard 100 (storeOf (crowd 101))).1
  ∧ (length (getLeaderboard 100 (storeOf (crowd 101))).1 ≤ 100)%nat.
Proof.
  apply (getCandidateRank_beyond_top100 (storeOf (crowd 101)) lastOfCrowd 100).
  - apply (bool_decide_unpack
             (NoDup (Candidate.id <$> candidates (storeOf (crowd 101))))).
    vm_compute. exact I.
  - vm_compute. reflexivity.
  - lia.
Defined.

(** ** The ad hoc queries recompute *)

Lemma getTopCandidates_char limit w :
  getTopCandidates limit w
  = (jsSlice0 limit (getLeaderboard 100 w).1, (getLeaderboard 100 w).2).
Proof. unfold getTopCandidates. by destruct (getLeaderboard 100 w). Qed.

Lemma getCandidateRank_char cid w :
  getCandidateRank cid w
  = ({| entry := findEntry cid (getLeaderboard 100 w).1;
        total := countApproved (candidates w) |},
     (getLeaderboard 100 w).2).
Proof. done. Qed.

Lemma getRisingStars_char limit w :
  getRisingStars limit w
  = (jsSlice0 limit
       (stableSort rising_leb
          (filter (λ e, isRising e = true) (getLeaderboard 100 w).1)),
     (getLeaderboard 100 w).2).
Proof. unfold getRisingStars. by destruct (getLeaderboard 100 w). Qed.

(** The standings of a fresh ranking are a function of the candidate table
    alone; the snapshot held before enters the deltas only. *)
Lemma getLeaderboard_standing limit w1 w2 :
  candidates w1 = candidates w2 →
  standing <$> (getLeaderboard limit w1).1
  = standing <$> (getLeaderboard limit w2).1.
Proof.
  intros Heq. rewrite !getLeaderboard_fst, !fmap_imap, Heq.
  by apply imap_ext.
Qed.



(** ** confirmPayment *)

Lemma updateWhere_list_find {A} (P : A → bool) (f : A → A) (l : list A) :
  updateWhere P f l
  = (λ ix, (f ix.2, <[ix.1 := f ix.2]> l)) <$> list_find (λ x, P x = true) l.
Proof.
  induction l as [|x l IH]; [done|]. simpl.
  destruct (P x) eqn:HP.
  - by rewrite decide_True.
  - rewrite decide_False by congruence. rewrite IH.
    by destruct (list_find _ l) as [[i y]|].
Qed.

Lemma updateWhere_is_Some {A} (P : A → bool) (f : A → A) (l : list A) x :
  x ∈ l → P x = true → is_Some (updateWhere P f l).
Proof.
  intros Hx HP. rewrite updateWhere_list_find.
  destruct (list_find_elem_of (λ y, P y = true) l x Hx HP) as [iy ->].
  by eexists.
Qed.

(** With unique keys the row addressed through its key is the row at hand. *)
Lemma list_find_key {A} (key : A → string) (l : list A) i x :
  NoDup (key <$> l) → l !! i = Some x →
  list_find (λ y, bool_decide (key y = key x) = true) l = Some (i, x).
Proof.
  intros Hnd Hi. apply list_find_Some. split; [done|].
  split; [by apply bool_decide_eq_true|].
  intros j y Hj Hlt Hy%bool_decide_eq_true.
  assert (j = i); [|lia].
  eapply (NoDup_lookup _ _ _ _ Hnd); rewrite list_lookup_fmap.
  - by rewrite Hj.
  - by rewrite Hi, Hy.
Qed.

Lemma triggerUpdate_store w :
  candidates (triggerUpdate w) = candidates w
  ∧ votes (triggerUpdate w) = votes w
  ∧ transactions (triggerUpdate w) = transactions w.
Proof. done. Qed.

Lemma notifyLeaderboard_store w :
  (notifyLeaderboard w).1 = Returned ()
  ∧ candidates (notifyLeaderboard w).2 = candidates w
  ∧ votes (notifyLeaderboard w).2 = votes w
  ∧ transactions (notifyLeaderboard w).2 = transactions w.
Proof. unfold notifyLeaderboard. by destruct (gatewayInjected w). Qed.

(** A confirmation for a reference no vote carries resolves with null and
    changes nothing. *)
Lemma confirmPayment_unmatched ref st payload w :
  findVote ref (votes w) = None →
  confirmPayment ref st payload w = (Returned None, w).
Proof.
  intros Hfind. unfold confirmPayment, bind, voteFindFirst.
  by rewrite Hfind.
Qed.

(** A confirmation that finds a COMPLETED vote resolves with that vote and
    changes nothing. *)
Lemma confirmPayment_completed_noop ref st payload w v :
  findVote ref (votes w) = Some v →
  Vote.paymentStatus v = COMPLETED →
  confirmPayment ref st payload w
  = (Returned
       (Some (ExistingVote
                {| row := v;
                   candidate := findCandidate (Vote.candidateId v)
                                  (candidates w);
                   transaction := findTransaction (Vote.id v)
                                    (transactions w) |})), w).
Proof.
  intros Hfind Hst. unfold confirmPayment, bind, voteFindFirst.
  rewrite Hfind. simpl. by rewrite decide_True.
Qed.

Lemma bind_eq {A B} (m : M A) (k : A → M B) w :
  bind m k w = match m w with
               | (Returned a, w') => k a w'
               | (Rejected, w') => (Rejected, w')
               end.
Proof. done. Qed.

(** Step 4 never rejects and touches the transaction table only. *)
Lemma updateTransaction_frame v st payload w w1 :
  transactions w1 = transactions w →
  ∃ w2,
    updateTransaction
      {| row := v;
         candidate := findCandidate (Vote.candidateId v) (candidates w);
         transaction := findTransaction (Vote.id v) (transactions w) |}
      st payload w1 = (Returned (), w2)
    ∧ votes w2 = votes w1 ∧ candidates w2 = candidates w1
    ∧ cachedLeaderboard w2 = cachedLeaderboard w1
    ∧ emitted w2 = emitted w1.
Proof.
  intros Htx. unfold updateTransaction. simpl.
  destruct (findTransaction _ _) as [t|] eqn:Ht; [|by exists w1].
  rewrite bind_eq. unfold transactionUpdate. rewrite Htx.
  destruct (updateWhere_is_Some
              (λ t0, bool_decide (Transaction.id t0 = Transaction.id t))
              (confirmTransactionData st payload) (transactions w) t)
    as [[t' ts'] ->].
  - unfold findTransaction in Ht.
    destruct (list_find _ (transactions w)) as [[j t0]|] eqn:Hj; [|done].
    injection Ht as ->.
    apply list_find_Some in Hj as (Hj & _). by eapply list_elem_of_lookup_2.
  - by apply bool_decide_eq_true.
  - by eexists.
Qed.

(** Steps 5 and 6 for a status other than COMPLETED do nothing. *)
Lemma creditCandidate_other vote st w :
  st ≠ COMPLETED → creditCandidate vote st w = (Returned (), w).
Proof. intros Hst. unfold creditCandidate. by rewrite decide_False. Qed.

(** Steps 5 and 6 on COMPLETED: the candidate row is credited, or the call
    rejects when the row is missing. *)
Lemma creditCandidate_completed vote w :
  ∃ out w',
    creditCandidate vote COMPLETED w = (out, w')
    ∧ votes w' = votes w
    ∧ match list_find (λ c, Candidate.id c = Vote.candidateId (row vote))
              (candidates w) with
      | Some (k, c) =>
          out = Returned ()
          ∧ candidates w'
            = <[k := incrementData (Vote.amount (row vote)) c]> (candidates w)
      | None => out = Rejected ∧ w' = w
      end.
Proof.
  unfold creditCandidate. rewrite decide_True by done.
  rewrite bind_eq. unfold candidateUpdate.
  rewrite updateWhere_list_find.
  rewrite (list_find_ext _ (λ c, Candidate.id c = Vote.candidateId (row vote))).
  2: { intros c. apply bool_decide_eq_true. }
  destruct (list_find _ (candidates w)) as [[k c]|] eqn:Hk; simpl.
  - match goal with |- context [notifyLeaderboard ?w0] =>
      destruct (notifyLeaderboard_store w0) as (Hout & Hcs & Hvs & _);
      destruct (notifyLeaderboard w0) as [out w3] end.
    simpl in *. subst out. by eexists _, _.
  - by eexists _, _.
Qed.

(** What a confirmation does to a vote that is not COMPLETED yet. *)
Lemma confirmPayment_step ref st payload w i v :
  NoDup (Vote.id <$> votes w) →
  list_find (λ u, Vote.providerTxId u = Some ref) (votes w) = Some (i, v) →
  Vote.paymentStatus v ≠ COMPLETED →
  let v' := confirmVoteData st (now w) v in
  ∃ out w',
    confirmPayment ref st payload w = (out, w')
    ∧ votes w' = <[i := v']> (votes w)
    ∧ (st ≠ COMPLETED →
       out = Returned (Some (UpdatedVote v'))
       ∧ candidates w' = candidates w
       ∧ cachedLeaderboard w' = cachedLeaderboard w
       ∧ emitted w' = emitted w)
    ∧ (st = COMPLETED →
       match list_find (λ c, Candidate.id c = Vote.candidateId v)
               (candidates w) with
       | Some (k, c) =>
           out = Returned (Some (UpdatedVote v'))
           ∧ candidates w'
             = <[k := incrementData (Vote.amount v) c]> (candidates w)
       | None => out = Rejected ∧ candidates w' = candidates w
       end).
Proof.
  intros Hnd Hfind Hst v'.
  pose proof Hfind as (Hi & _ & _)%list_find_Some.
  unfold confirmPayment. rewrite bind_eq. unfold voteFindFirst, findVote.
  rewrite Hfind. cbn [fmap option_fmap option_map snd row].
  rewrite decide_False by done.
  rewrite bind_eq. cbn [newDate].
  rewrite bind_eq. unfold voteUpdate.
  rewrite updateWhere_list_find, (list_find_key Vote.id _ i v) by done.
  cbn [fmap option_fmap option_map fst snd]. fold v'.
  set (w1 := setVotes (<[i:=v']> (votes w)) w).
  rewrite bind_eq.
  destruct (updateTransaction_frame v st payload w w1 eq_refl)
    as (w2 & -> & Hv2 & Hc2 & Hcache2 & Hem2).
  rewrite bind_eq.
  destruct (decide (st = COMPLETED)) as [->|Hne].
  - match goal with |- context [creditCandidate ?vote COMPLETED w2] =>
      destruct (creditCandidate_completed vote w2)
        as (out & w3 & -> & Hv3 & Hc3) end.
    cbn [row] in Hc3. rewrite Hc2 in Hc3. change (candidates w1) with
      (candidates w) in Hc3.
    destruct (list_find _ (candidates w)) as [[k c]|] eqn:Hk.
    + destruct Hc3 as [-> Hc3]. eexists _, _. split; [reflexivity|].
      split; [by rewrite Hv3, Hv2|]. split; [done|]. by intros _.
    + destruct Hc3 as [-> ->]. eexists _, _. split; [reflexivity|].
      split; [done|]. split; [done|]. intros _. by rewrite Hc2.
  - rewrite creditCandidate_other by done.
    eexists _, _. split; [reflexivity|].
    split; [done|]. split; [|done]. intros _.
    by rewrite Hc2, Hcache2, Hem2.
Qed.




(** The vote table after any confirmation: unchanged, or one row that was
    not COMPLETED rewritten in place. *)
Lemma confirmPayment_votes_shape ref st payload w :
  NoDup (Vote.id <$> votes w) →
  votes (confirmPayment ref st payload w).2 = votes w
  ∨ ∃ i v, votes w !! i = Some v
           ∧ Vote.paymentStatus v ≠ COMPLETED
           ∧ votes (confirmPayment ref st payload w).2
             = <[i := confirmVoteData st (now w) v]> (votes w).
Proof.
  intros Hnd.
  destruct (list_find (λ u, Vote.providerTxId u = Some ref) (votes w))
    as [[i v]|] eqn:Hfind.
  - destruct (decide (Vote.paymentStatus v = COMPLETED)) as [Hst|Hst].
    + left. rewrite (confirmPayment_completed_noop ref st payload w v); [done| |done].
      unfold findVote. by rewrite Hfind.
    + right. exists i, v.
      destruct (confirmPayment_step ref st payload w i v Hnd Hfind Hst)
        as (out & w' & -> & Hv & _).
      apply list_find_Some in Hfind as (Hi & _). done.
  - left. rewrite confirmPayment_unmatched; [done|].
    unfold findVote. by rewrite Hfind.
Qed.

Lemma confirmPayment_votes_frame ref st payload w :
  NoDup (Vote.id <$> votes w) →
  let w' := (confirmPayment ref st payload w).2 in
  Vote.id <$> votes w' = Vote.id <$> votes w
  ∧ Vote.providerTxId <$> votes w' = Vote.providerTxId <$> votes w
  ∧ ∀ j u, votes w !! j = Some u → Vote.paymentStatus u = COMPLETED →
           votes w' !! j = Some u.
Proof.
  intros Hnd w'. subst w'.
  destruct (confirmPayment_votes_shape ref st payload w Hnd)
    as [->|(i & v & Hi & Hst & ->)]; [done|].
  rewrite !list_fmap_insert. simpl.
  split; [apply list_insert_id; by rewrite list_lookup_fmap, Hi|].
  split; [apply list_insert_id; by rewrite list_lookup_fmap, Hi|].
  intros j u Hj Hu. destruct (decide (i = j)) as [->|Hne].
  - congruence.
  - by rewrite list_lookup_insert_ne.
Qed.

Lemma deliver_cons c cs w :
  deliver (c :: cs) w
  = deliver cs (confirmPayment (confRef c) (confStatus c) (confPayload c) w).2.
Proof. done. Qed.











(** ** Recompute passes in flight *)

Lemma run_app evs1 evs2 r : run (evs1 ++ evs2) r = run evs2 (run evs1 r).
Proof. apply foldl_app. Qed.

Lemma run_cons ev evs r : run (ev :: evs) r = run evs (step r ev).
Proof. done. Qed.

(** A pass that runs alone does what [broadcastLeaderboardUpdate] does. *)
Lemma pass_alone t w :
  run [Fire t; DbReply 0; DbReply 0] (idleRuntime w)
  = {| world := broadcastLeaderboardUpdate w; inFlight := [];
       passesStarted := 1 |}.
Proof. done. Qed.

Lemma run_fire ts r :
  inFlight (run (Fire <$> ts) r)
  = inFlight r ++ replicate (length ts) AwaitingFindMany
  ∧ passesStarted (run (Fire <$> ts) r) = (passesStarted r + length ts)%nat
  ∧ world (run (Fire <$> ts) r) = world r.
Proof.
  revert r. induction ts as [|t ts IH]; intros r.
  - simpl. by rewrite app_nil_r, Nat.add_0_r.
  - rewrite fmap_cons, run_cons. simpl step.
    destruct (IH (fire t r)) as (-> & -> & ->). simpl.
    rewrite <- app_assoc. split; [done|]. split; [lia|done].
Qed.

Lemma resume_findMany r rest :
  inFlight r = AwaitingFindMany :: rest →
  resume 0 r
  = {| world := (getLeaderboard 100 (world r)).2;
       inFlight := AwaitingAggregate (getLeaderboard 100 (world r)).1 :: rest;
       passesStarted := passesStarted r |}.
Proof. intros Hr. unfold resume. by rewrite Hr. Qed.

Lemma resume_aggregate r lb rest :
  inFlight r = AwaitingAggregate lb :: rest →
  resume 0 r
  = {| world := emit {| msgLeaderboard := lb;
                        msgStats := getStats (world r);
                        msgTimestamp := now (world r) |} (world r);
       inFlight := rest;
       passesStarted := passesStarted r |}.
Proof. intros Hr. unfold resume. by rewrite Hr. Qed.

Lemma run_drain n r :
  inFlight r = replicate n AwaitingFindMany →
  inFlight (run (drain n) r) = []
  ∧ length (emitted (world (run (drain n) r)))
    = (length (emitted (world r)) + n)%nat
  ∧ passesStarted (run (drain n) r) = passesStarted r.
Proof.
  revert r. induction n as [|n IH]; intros r Hr.
  - simpl. by rewrite Nat.add_0_r.
  - unfold drain. simpl replicate. simpl concat.
    change (DbReply 0 :: DbReply 0 :: ?l) with ([DbReply 0; DbReply 0] ++ l).
    rewrite run_app. fold (drain n).
    set (r1 := run [DbReply 0; DbReply 0] r).
    assert (inFlight r1 = replicate n AwaitingFindMany
            ∧ length (emitted (world r1)) = S (length (emitted (world r)))
            ∧ passesStarted r1 = passesStarted r) as (Hin & Hem & Hps).
    { subst r1. rewrite !run_cons. simpl step.
      rewrite (resume_findMany r (replicate n AwaitingFindMany)) by done.
      erewrite resume_aggregate by done. simpl.
      rewrite length_app. simpl. split; [done|]. split; [lia|done]. }
    destruct (IH r1 Hin) as (-> & -> & ->). split; [done|]. split; [lia|done].
Qed.

(** C9 as stated fails: a periodic tick and an event trigger that arrive
    together leave two passes in flight, and both run to their broadcast. *)
Lemma tick_and_trigger_run_two_passes :
  inFlight (run [Fire PeriodicTick; Fire EventTrigger] (idleRuntime votedWorld))
  = [AwaitingFindMany; AwaitingFindMany]
  ∧ passesStarted
      (run [Fire PeriodicTick; Fire EventTrigger] (idleRuntime votedWorld)) = 2%nat
  ∧ inFlight
      (run [Fire PeriodicTick; Fire EventTrigger;
            DbReply 0; DbReply 1; DbReply 0; DbReply 0]
         (idleRuntime votedWorld)) = []
  ∧ length
      (emitted
         (world
            (run [Fire PeriodicTick; Fire EventTrigger;
                  DbReply 0; DbReply 1; DbReply 0; DbReply 0]
               (idleRuntime votedWorld)))) = 2%nat.
Proof. repeat split; by vm_compute. Qed.

(** C9, as amended: nothing guards the recompute path. Every trigger,
    periodic or event-driven, starts a pass of its own at once, whatever is
    in flight; none is dropped or queued. Triggers that arrive together
    from rest leave as many passes in flight as there are triggers, and
    each of these passes runs to its broadcast. *)
Theorem every_trigger_starts_a_pass (ts : list Trigger) (r : Runtime) :
  inFlight (run (Fire <$> ts) r)
  = inFlight r ++ replicate (length ts) AwaitingFindMany
  ∧ passesStarted (run (Fire <$> ts) r) = (passesStarted r + length ts)%nat
  ∧ ∀ w : World,
      length (inFlight (run (Fire <$> ts) (idleRuntime w))) = length ts
      ∧ inFlight (run ((Fire <$> ts) ++ drain (length ts)) (idleRuntime w)) = []
      ∧ length
          (emitted
             (world (run ((Fire <$> ts) ++ drain (length ts)) (idleRuntime w))))
        = (length (emitted w) + length ts)%nat.
Proof.
  destruct (run_fire ts r) as (Hin & Hps & _).
  split; [done|]. split; [done|]. intros w.
  destruct (run_fire ts (idleRuntime w)) as (Hin0 & _ & Hw0).
  simpl in Hin0. rewrite run_app.
  destruct (run_drain (length ts) _ Hin0) as (-> & -> & _).
  rewrite Hin0, length_replicate, Hw0. done.
Qed.

(** * Further properties of the confirmation path *)

Lemma setVotes_votes w : setVotes (votes w) w = w.
Proof. by destruct w. Qed.

Lemma setTransactions_transactions w : setTransactions (transactions w) w = w.
Proof. by destruct w. Qed.

(** Whatever it resolves with, [vote.update] writes to the vote table only. *)
Lemma voteUpdate_world vid data w :
  ∃ vs', (voteUpdate vid data w).2 = setVotes vs' w.
Proof.
  unfold voteUpdate.
  destruct (updateWhere _ data (votes w)) as [[v' vs']|].
  - by exists vs'.
  - exists (votes w). by rewrite setVotes_votes.
Qed.

(** Step 4 resolves and writes to the transaction table only. *)
Lemma updateTransaction_world v st payload w w1 :
  transactions w1 = transactions w →
  ∃ ts',
    updateTransaction
      {| row := v;
         candidate := findCandidate (Vote.candidateId v) (candidates w);
         transaction := findTransaction (Vote.id v) (transactions w) |}
      st payload w1 = (Returned (), setTransactions ts' w1).
Proof.
  intros Htx. unfold updateTransaction. cbn [transaction].
  destruct (findTransaction _ _) as [t|] eqn:Ht.
  - rewrite bind_eq. unfold transactionUpdate. rewrite Htx.
    destruct (updateWhere_is_Some
                (λ t0, bool_decide (Transaction.id t0 = Transaction.id t))
                (confirmTransactionData st payload) (transactions w) t)
      as [[t' ts'] ->].
    + unfold findTransaction in Ht.
      destruct (list_find _ (transactions w)) as [[j t0]|] eqn:Hj; [|done].
      injection Ht as ->.
      apply list_find_Some in Hj as (Hj & _). by eapply list_elem_of_lookup_2.
    + by apply bool_decide_eq_true.
    + by exists ts'.
  - exists (transactions w1). by rewrite setTransactions_transactions.
Qed.

(** The whole effect of a confirmation on a vote that is not COMPLETED. *)
Lemma confirmPayment_world ref st payload w i v :
  NoDup (Vote.id <$> votes w) →
  list_find (λ u, Vote.providerTxId u = Some ref) (votes w) = Some (i, v) →
  Vote.paymentStatus v ≠ COMPLETED →
  let v' := confirmVoteData st (now w) v in
  ∃ ts',
    let w2 := setTransactions ts' (setVotes (<[i := v']> (votes w)) w) in
    confirmPayment ref st payload w
    = if decide (st = COMPLETED) then
        match list_find (λ c, Candidate.id c = Vote.candidateId v)
                (candidates w) with
        | Some (k, c) =>
            (Returned (Some (UpdatedVote v')),
             (notifyLeaderboard
                (setCandidates
                   (<[k := incrementData (Vote.amount v) c]> (candidates w))
                   w2)).2)
        | None => (Rejected, w2)
        end
      else (Returned (Some (UpdatedVote v')), w2).
Proof.
  intros Hnd Hfind Hst v'.
  pose proof Hfind as (Hi & _ & _)%list_find_Some.
  unfold confirmPayment. rewrite bind_eq. unfold voteFindFirst, findVote.
  rewrite Hfind. cbn [fmap option_fmap option_map snd row].
  rewrite decide_False by done.
  rewrite bind_eq. cbn [newDate].
  rewrite bind_eq. unfold voteUpdate.
  rewrite updateWhere_list_find, (list_find_key Vote.id _ i v) by done.
  cbn [fmap option_fmap option_map fst snd]. fold v'.
  set (w1 := setVotes (<[i:=v']> (votes w)) w).
  rewrite bind_eq.
  destruct (updateTransaction_world v st payload w w1 eq_refl) as (ts' & ->).
  exists ts'. cbn zeta. set (w2 := setTransactions ts' w1).
  rewrite bind_eq.
  destruct (decide (st = COMPLETED)) as [->|Hne].
  - unfold creditCandidate. rewrite decide_True by done.
    rewrite bind_eq. unfold candidateUpdate. cbn [row].
    rewrite updateWhere_list_find.
    rewrite (list_find_ext _ (λ c, Candidate.id c = Vote.candidateId v)).
    2: { intros c. apply bool_decide_eq_true. }
    change (candidates w2) with (candidates w).
    destruct (list_find _ (candidates w)) as [[k c]|]; [|done].
    cbn [fmap option_fmap option_map fst snd].
    destruct (notifyLeaderboard_store
                (setCandidates
                   (<[k:=incrementData (Vote.amount v) c]> (candidates w)) w2))
      as (Hout & _).
    destruct (notifyLeaderboard _) as [out w3]. simpl in Hout. by subst out.
  - by rewrite creditCandidate_other.
Qed.

(** What a confirmation does to the two tables when every vote names a
    candidate on record. *)
Lemma confirmPayment_tables ref st payload w :
  NoDup (Vote.id <$> votes w) →
  votesReferToCandidates w →
  (confirmPayment ref st payload w).2 = w
  ∨ ∃ i v,
      votes w !! i = Some v
      ∧ Vote.paymentStatus v ≠ COMPLETED
      ∧ votes (confirmPayment ref st payload w).2
        = <[i := confirmVoteData st (now w) v]> (votes w)
      ∧ ((st ≠ COMPLETED
          ∧ candidates (confirmPayment ref st payload w).2 = candidates w)
         ∨ (st = COMPLETED
            ∧ ∃ k c,
                candidates w !! k = Some c
                ∧ candidates (confirmPayment ref st payload w).2
                  = <[k := incrementData (Vote.amount v) c]> (candidates w))).
Proof.
  intros Hnd Hfk.
  destruct (list_find (λ u, Vote.providerTxId u = Some ref) (votes w))
    as [[i v]|] eqn:Hfind.
  2: { left. rewrite confirmPayment_unmatched; [done|].
       unfold findVote. by rewrite Hfind. }
  destruct (decide (Vote.paymentStatus v = COMPLETED)) as [Hst|Hst].
  { left. rewrite (confirmPayment_completed_noop ref st payload w v);
      [done| |done]. unfold findVote. by rewrite Hfind. }
  right. exists i, v.
  pose proof Hfind as (Hi & _)%list_find_Some.
  destruct (confirmPayment_world ref st payload w i v Hnd Hfind Hst)
    as (ts' & ->).
  split; [done|]. split; [done|].
  destruct (decide (st = COMPLETED)) as [->|Hne]; [|split; [done|by left]].
  assert (is_Some (list_find (λ c, Candidate.id c = Vote.candidateId v)
                     (candidates w))) as [[k c] Hk].
  { unfold votesReferToCandidates in Hfk. rewrite Forall_lookup in Hfk.
    apply Hfk in Hi. apply list_elem_of_fmap in Hi as (c & Hc & Hin).
    by apply (list_find_elem_of _ _ c). }
  rewrite Hk.
  match goal with |- context [notifyLeaderboard ?w0] =>
    destruct (notifyLeaderboard_store w0) as (_ & Hcs & Hvs & _) end.
  cbn [snd]. rewrite Hvs, Hcs. split; [done|]. right. split; [done|].
  exists k, c. split; [|done]. by apply list_find_Some in Hk as (? & _).
Qed.

Lemma sumZ_insert {A} (f : A → Z) (l : list A) i x y :
  l !! i = Some x → sumZ f (<[i:=y]> l) = sumZ f l - f x + f y.
Proof.
  unfold sumZ. revert i.
  induction l as [|z l IH]; intros [|i] Hi; simplify_eq/=; [lia|].
  rewrite (IH i Hi). lia.
Qed.

Lemma completedCount_sumZ vs :
  completedCount vs
  = sumZ (λ v, if decide (Vote.paymentStatus v = COMPLETED) then 1 else 0) vs.
Proof.
  unfold completedCount, completedVotes, sumZ.
  induction vs as [|v vs IH]; [done|].
  rewrite filter_cons, fmap_cons. cbn [foldr].
  destruct (decide _); cbn [length fmap list_fmap foldr]; lia.
Qed.

Lemma completedAmount_sumZ vs :
  completedAmount vs
  = sumZ (λ v, if decide (Vote.paymentStatus v = COMPLETED)
               then Vote.amount v else 0) vs.
Proof.
  unfold completedAmount, completedVotes, sumZ.
  induction vs as [|v vs IH]; [done|].
  rewrite filter_cons, fmap_cons. cbn [foldr].
  destruct (decide _); cbn [length fmap list_fmap foldr]; lia.
Qed.

(** One confirmation keeps the books: the counters of the candidate table
    move by what the COMPLETED votes gained. *)
Lemma confirmPayment_accounting ref st payload w :
  NoDup (Vote.id <$> votes w) →
  votesReferToCandidates w →
  let w' := (confirmPayment ref st payload w).2 in
  sumZ Candidate.totalVotes (candidates w')
  - sumZ Candidate.totalVotes (candidates w)
  = completedCount (votes w') - completedCount (votes w)
  ∧ sumZ Candidate.totalRevenue (candidates w')
    - sumZ Candidate.totalRevenue (candidates w)
    = completedAmount (votes w') - completedAmount (votes w)
  ∧ Vote.id <$> votes w' = Vote.id <$> votes w
  ∧ Vote.candidateId <$> votes w' = Vote.candidateId <$> votes w
  ∧ Vote.amount <$> votes w' = Vote.amount <$> votes w
  ∧ Candidate.id <$> candidates w' = Candidate.id <$> candidates w
  ∧ (Forall (λ v, 0 <= Vote.amount v) (votes w) →
     Forall2 sameCandidateGrown (candidates w) (candidates w')).
Proof.
  intros Hnd Hfk w'. subst w'.
  assert (Forall2 sameCandidateGrown (candidates w) (candidates w)) as Hrefl.
  { apply Forall_Forall2_diag, Forall_forall. intros c _.
    unfold sameCandidateGrown. repeat split; (done || lia). }
  destruct (confirmPayment_tables ref st payload w Hnd Hfk)
    as [->|(i & v & Hi & Hst & -> & Hcs)].
  { repeat split; (done || lia). }
  assert (Vote.id <$> <[i:=confirmVoteData st (now w) v]> (votes w)
          = Vote.id <$> votes w
          ∧ Vote.candidateId <$> <[i:=confirmVoteData st (now w) v]> (votes w)
            = Vote.candidateId <$> votes w
          ∧ Vote.amount <$> <[i:=confirmVoteData st (now w) v]> (votes w)
            = Vote.amount <$> votes w) as (Hids & Hcids & Hams).
  { rewrite !list_fmap_insert. simpl.
    repeat split; apply list_insert_id; by rewrite list_lookup_fmap, Hi. }
  rewrite !completedCount_sumZ, !completedAmount_sumZ.
  rewrite !(sumZ_insert _ _ _ _ _ Hi). simpl.
  destruct (decide (Vote.paymentStatus v = COMPLETED)); [done|].
  destruct Hcs as [(Hne & ->)|(-> & k & c & Hk & ->)].
  - destruct (decide (st = COMPLETED)); [done|].
    repeat split; (done || lia).
  - destruct (decide (COMPLETED = COMPLETED)); [|done].
    rewrite !(sumZ_insert _ _ _ _ _ Hk). simpl.
    split; [lia|]. split; [lia|]. split; [done|]. split; [done|].
    split; [done|]. split.
    + rewrite list_fmap_insert. simpl.
      apply list_insert_id. by rewrite list_lookup_fmap, Hk.
    + rewrite Forall_lookup. intros Hall.
      rewrite <- (list_insert_id (candidates w) k c Hk) at 1.
      apply Forall2_insert; [done|].
      pose proof (Hall i v Hi).
      unfold sameCandidateGrown. simpl. repeat split; (done || lia).
Qed.

Lemma votesReferToCandidates_columns w w' :
  Vote.candidateId <$> votes w' = Vote.candidateId <$> votes w →
  Candidate.id <$> candidates w' = Candidate.id <$> candidates w →
  votesReferToCandidates w → votesReferToCandidates w'.
Proof.
  unfold votesReferToCandidates. intros Hv Hc Hfk.
  apply (Forall_fmap Vote.candidateId
           (λ cid, cid ∈ Candidate.id <$> candidates w')).
  rewrite Hv, Hc. by apply Forall_fmap.
Qed.

Lemma sameCandidateGrown_trans c1 c2 c3 :
  sameCandidateGrown c1 c2 → sameCandidateGrown c2 c3 →
  sameCandidateGrown c1 c3.
Proof.
  unfold sameCandidateGrown. intros H12 H23.
  destruct H12 as (? & ? & ? & ? & ? & ? & ? & ? & ? & ? & ? & ?).
  destruct H23 as (? & ? & ? & ? & ? & ? & ? & ? & ? & ? & ? & ?).
  repeat split; (congruence || lia).
Qed.

(** The invariants the accounting rests on survive every delivery. *)
Lemma deliver_accounting cs w :
  NoDup (Vote.id <$> votes w) →
  votesReferToCandidates w →
  sumZ Candidate.totalVotes (candidates (deliver cs w))
  - sumZ Candidate.totalVotes (candidates w)
  = completedCount (votes (deliver cs w)) - completedCount (votes w)
  ∧ sumZ Candidate.totalRevenue (candidates (deliver cs w))
    - sumZ Candidate.totalRevenue (candidates w)
    = completedAmount (votes (deliver cs w)) - completedAmount (votes w)
  ∧ Vote.amount <$> votes (deliver cs w) = Vote.amount <$> votes w
  ∧ (Forall (λ v, 0 <= Vote.amount v) (votes w) →
     Forall2 sameCandidateGrown (candidates w) (candidates (deliver cs w))).
Proof.
  revert w. induction cs as [|c cs IH]; intros w Hnd Hfk.
  { simpl. split; [lia|]. split; [lia|]. split; [done|]. intros _.
    apply Forall_Forall2_diag, Forall_forall. intros x _.
    unfold sameCandidateGrown. repeat split; (done || lia). }
  rewrite deliver_cons.
  destruct (confirmPayment_accounting (confRef c) (confStatus c)
              (confPayload c) w Hnd Hfk)
    as (Hvotes & Hrev & Hids & Hcids & Hams & Hcand & Hgrow).
  set (w1 := (confirmPayment (confRef c) (confStatus c) (confPayload c) w).2)
    in *.
  destruct (IH w1) as (Hvotes' & Hrev' & Hams' & Hgrow').
  { by rewrite Hids. }
  { by apply (votesReferToCandidates_columns w). }
  split; [lia|]. split; [lia|]. split; [by rewrite Hams'|].
  intros Hpos. eapply Forall2_trans; [apply sameCandidateGrown_trans| |].
  - by apply Hgrow.
  - apply Hgrow'.
    apply (Forall_fmap Vote.amount (λ a, 0 <= a)). rewrite Hams.
    by apply Forall_fmap.
Qed.

(** X1: for confirmations handled one at a time, each call of
    [confirmPayment] running to its end before the next one starts, in
    whatever order and however often they are repeated, the vote counters
    of the candidate table grow by exactly the number of votes that became
    COMPLETED, and the revenue counters by exactly the amounts of those
    votes (vote ids unique, every vote naming a candidate on record, the
    counters taken as integers without an upper bound).  Calls that
    overlap are not covered: the status test and the increment are
    separate queries outside any database transaction. *)
Theorem deliver_exactly_once_accounting (cs : list Confirmation) (w : World) :
  NoDup (Vote.id <$> votes w) →
  votesReferToCandidates w →
  sumZ Candidate.totalVotes (candidates (deliver cs w))
  - sumZ Candidate.totalVotes (candidates w)
  = completedCount (votes (deliver cs w)) - completedCount (votes w)
  ∧ sumZ Candidate.totalRevenue (candidates (deliver cs w))
    - sumZ Candidate.totalRevenue (candidates w)
    = completedAmount (votes (deliver cs w)) - completedAmount (votes w).
Proof.
  intros Hnd Hfk.
  destruct (deliver_accounting cs w Hnd Hfk) as (Hv & Hr & _).
  by split.
Qed.

Lemma deliver_exactly_once_accounting_witness :
  let cs := [mkConfirmation "tx-1" FAILED None;
             mkConfirmation "tx-1" COMPLETED None;
             mkConfirmation "tx-1" COMPLETED None;
             mkConfirmation "tx-9" COMPLETED None] in
  sumZ Candidate.totalVotes (candidates (deliver cs pendingWorld))
  - sumZ Candidate.totalVotes (candidates pendingWorld)
  = completedCount (votes (deliver cs pendingWorld))
    - completedCount (votes pendingWorld)
  ∧ sumZ Candidate.totalRevenue (candidates (deliver cs pendingWorld))
    - sumZ Candidate.totalRevenue (candidates pendingWorld)
    = completedAmount (votes (deliver cs pendingWorld))
      - completedAmount (votes pendingWorld).
Proof.
  apply (deliver_exactly_once_accounting _ pendingWorld).
  - apply NoDup_singleton.
  - repeat constructor.
Defined.

(** X2: deliveries never add, remove or reorder candidate rows and never
    touch a column other than the two counters, so the approved candidates
    stay the same; with no negative amount on record neither counter of any
    candidate ever goes down. *)
Theorem deliver_candidates_only_grow (cs : list Confirmation) (w : World) :
  NoDup (Vote.id <$> votes w) →
  votesReferToCandidates w →
  Forall (λ v, 0 <= Vote.amount v) (votes w) →
  Forall2 sameCandidateGrown (candidates w) (candidates (deliver cs w))
  ∧ countApproved (candidates (deliver cs w)) = countApproved (candidates w).
Proof.
  intros Hnd Hfk Hpos.
  destruct (deliver_accounting cs w Hnd Hfk) as (_ & _ & _ & Hgrow).
  specialize (Hgrow Hpos). split; [done|].
  unfold countApproved, whereApproved. f_equal.
  induction Hgrow as [|c c' l l' Hc _ IH]; [done|].
  rewrite !filter_cons.
  destruct Hc as (_ & _ & _ & _ & _ & _ & _ & _ & Hst & _).
  rewrite Hst. destruct (decide _); simpl; by rewrite IH.
Qed.

Lemma deliver_candidates_only_grow_witness :
  let cs := [mkConfirmation "tx-1" FAILED None;
             mkConfirmation "tx-1" COMPLETED None;
             mkConfirmation "tx-1" COMPLETED None] in
  Forall2 sameCandidateGrown (candidates pendingWorld)
    (candidates (deliver cs pendingWorld))
  ∧ countApproved (candidates (deliver cs pendingWorld))
    = countApproved (candidates pendingWorld).
Proof.
  apply (deliver_candidates_only_grow _ pendingWorld).
  - apply NoDup_singleton.
  - repeat constructor.
  - repeat constructor. simpl. lia.
Defined.

(** A confirmation with a status other than COMPLETED writes to the vote
    and transaction tables at most. *)
Lemma confirmPayment_other_world ref st payload w :
  st ≠ COMPLETED →
  ∃ vs' ts',
    (confirmPayment ref st payload w).2 = setTransactions ts' (setVotes vs' w).
Proof.
  intros Hst. unfold confirmPayment. rewrite bind_eq. unfold voteFindFirst.
  destruct (findVote ref (votes w)) as [v|];
    cbn [fmap option_fmap option_map row].
  2: { exists (votes w), (transactions w).
       by rewrite setVotes_votes, setTransactions_transactions. }
  destruct (decide (Vote.paymentStatus v = COMPLETED)).
  { exists (votes w), (transactions w).
    by rewrite setVotes_votes, setTransactions_transactions. }
  rewrite bind_eq. cbn [newDate]. rewrite bind_eq.
  destruct (voteUpdate_world (Vote.id v) (confirmVoteData st (now w)) w)
    as (vs' & Hvs).
  destruct (voteUpdate _ _ w) as [[u|] w1]; simpl in Hvs; subst w1.
  - rewrite bind_eq.
    destruct (updateTransaction_world v st payload w (setVotes vs' w) eq_refl)
      as (ts' & ->).
    rewrite bind_eq, creditCandidate_other by done. by exists vs', ts'.
  - exists vs', (transactions w).
    by rewrite <- (setTransactions_transactions (setVotes vs' w)) at 1.
Qed.

(** X3: a confirmation that carries a status other than COMPLETED (FAILED,
    PENDING) never touches the candidate table, the cached snapshot, its
    timestamp or the broadcast log, whatever vote it finds: the global
    statistics and the ranking stay as they were. *)
Theorem confirmPayment_not_completed_frame (ref : string)
    (st : PaymentStatus) (payload : option string) (w : World) :
  st ≠ COMPLETED →
  let w' := (confirmPayment ref st payload w).2 in
  candidates w' = candidates w
  ∧ cachedLeaderboard w' = cachedLeaderboard w
  ∧ lastUpdate w' = lastUpdate w
  ∧ emitted w' = emitted w
  ∧ getStats w' = getStats w
  ∧ ∀ limit, (getLeaderboard limit w').1 = (getLeaderboard limit w).1.
Proof.
  intros Hst w'. subst w'.
  destruct (confirmPayment_other_world ref st payload w Hst)
    as (vs' & ts' & ->).
  done.
Qed.

Lemma confirmPayment_not_completed_frame_witness :
  candidates (confirmPayment "tx-1" FAILED None pendingWorld).2
  = candidates pendingWorld
  ∧ cachedLeaderboard (confirmPayment "tx-1" FAILED None pendingWorld).2
    = cachedLeaderboard pendingWorld
  ∧ lastUpdate (confirmPayment "tx-1" FAILED None pendingWorld).2
    = lastUpdate pendingWorld
  ∧ emitted (confirmPayment "tx-1" FAILED None pendingWorld).2
    = emitted pendingWorld
  ∧ getStats (confirmPayment "tx-1" FAILED None pendingWorld).2
    = getStats pendingWorld
  ∧ ∀ limit,
      (getLeaderboard limit (confirmPayment "tx-1" FAILED None pendingWorld).2).1
      = (getLeaderboard limit pendingWorld).1.
Proof.
  apply (confirmPayment_not_completed_frame "tx-1" FAILED None pendingWorld).
  discriminate.
Defined.

(** X4: a COMPLETED confirmation for a vote that is not COMPLETED yet, its
    candidate on record, resolves with the updated vote and, when the
    gateway is injected, broadcasts exactly one message: the top-100 ranking
    of the credited store with deltas against the snapshot held before,
    which becomes the cached snapshot, and the statistics of the credited
    store. Without the gateway nothing is broadcast and the cached snapshot
    stays stale. *)
Theorem confirmPayment_completed_broadcast (ref : string)
    (payload : option string) (w : World) (v : Vote.t) (c : Candidate.t) :
  NoDup (Vote.id <$> votes w) →
  findVote ref (votes w) = Some v →
  Vote.paymentStatus v ≠ COMPLETED →
  findCandidate (Vote.candidateId v) (candidates w) = Some c →
  let w' := (confirmPayment ref COMPLETED payload w).2 in
  (gatewayInjected w = true →
   ∃ m, emitted w' = emitted w ++ [m]
        ∧ msgLeaderboard m
          = imap (toEntry (cachedLeaderboard w))
              (findManyApproved 100 (candidates w'))
        ∧ cachedLeaderboard w' = msgLeaderboard m
        ∧ msgStats m = getStats w'
        ∧ lastUpdate w' = now w)
  ∧ (gatewayInjected w = false →
     emitted w' = emitted w
     ∧ cachedLeaderboard w' = cachedLeaderboard w
     ∧ lastUpdate w' = lastUpdate w).
Proof.
  intros Hnd Hfind Hst Hcand w'. subst w'.
  unfold findVote in Hfind.
  destruct (list_find _ (votes w)) as [[i v0]|] eqn:Hi; [|done].
  injection Hfind as ->.
  unfold findCandidate in Hcand.
  destruct (list_find _ (candidates w)) as [[k c0]|] eqn:Hk; [|done].
  injection Hcand as ->.
  destruct (confirmPayment_world ref COMPLETED payload w i v Hnd Hi Hst)
    as (ts' & ->).
  rewrite decide_True by done. rewrite Hk. cbn [snd].
  unfold notifyLeaderboard.
  cbn [gatewayInjected setCandidates setTransactions setVotes].
  split; intros Hg; rewrite Hg; [|done].
  eexists. cbn [snd]. unfold triggerUpdate, broadcastLeaderboardUpdate.
  by cbn.
Qed.

Lemma confirmPayment_completed_broadcast_witness :
  let w' := (confirmPayment "tx-1" COMPLETED None pendingWorld).2 in
  (gatewayInjected pendingWorld = true →
   ∃ m, emitted w' = emitted pendingWorld ++ [m]
        ∧ msgLeaderboard m
          = imap (toEntry (cachedLeaderboard pendingWorld))
              (findManyApproved 100 (candidates w'))
        ∧ cachedLeaderboard w' = msgLeaderboard m
        ∧ msgStats m = getStats w'
        ∧ lastUpdate w' = now pendingWorld)
  ∧ (gatewayInjected pendingWorld = false →
     emitted w' = emitted pendingWorld
     ∧ cachedLeaderboard w' = cachedLeaderboard pendingWorld
     ∧ lastUpdate w' = lastUpdate pendingWorld).
Proof.
  apply (confirmPayment_completed_broadcast "tx-1" None pendingWorld
           pendingVote candA).
  - apply NoDup_singleton.
  - reflexivity.
  - discriminate.
  - reflexivity.
Defined.

Lemma confirmVoteData_verified st date v :
  verifiedIffCompleted (confirmVoteData st date v).
Proof.
  unfold verifiedIffCompleted. simpl. split; [done|].
  intros ->. by rewrite decide_True.
Qed.

(** X5: confirmations keep the vote table consistent: if every vote is
    flagged verified exactly when it is COMPLETED and every COMPLETED vote
    has its payment and verification dates, the same holds after any
    sequence of confirmations (vote ids unique). *)
Theorem deliver_verified_iff_completed (cs : list Confirmation) (w : World) :
  NoDup (Vote.id <$> votes w) →
  Forall verifiedIffCompleted (votes w) →
  Forall verifiedIffCompleted (votes (deliver cs w)).
Proof.
  revert w. induction cs as [|c cs IH]; intros w Hnd Hall; [done|].
  rewrite deliver_cons.
  destruct (confirmPayment_votes_frame (confRef c) (confStatus c)
              (confPayload c) w Hnd) as (Hids & _).
  apply IH; [by rewrite Hids|].
  destruct (confirmPayment_votes_shape (confRef c) (confStatus c)
              (confPayload c) w Hnd) as [->|(i & v & _ & _ & ->)]; [done|].
  apply Forall_insert; [done|apply confirmVoteData_verified].
Qed.

Lemma deliver_verified_iff_completed_witness :
  Forall verifiedIffCompleted
    (votes (deliver [mkConfirmation "tx-1" FAILED None;
                     mkConfirmation "tx-1" COMPLETED None] pendingWorld)).
Proof.
  apply (deliver_verified_iff_completed _ pendingWorld).
  - apply NoDup_singleton.
  - constructor; [|constructor].
    split; [reflexivity|]. simpl. discriminate.
Defined.

(** * Further properties of the leaderboard service *)

Section stable_sort_filter.
Context {A : Type} (leb : A → A → bool).
Context (P : A → Prop) `{∀ x, Decision (P x)}.
Hypothesis leb_trans : ∀ x y z,
  leb x y = true → leb y z = true → leb x z = true.

Lemma insertSorted_front x l :
  Forall (λ z, leb x z = true) l → insertSorted leb x l = x :: l.
Proof. destruct 1 as [|z l Hz _]; simpl; [done|by rewrite Hz]. Qed.

Lemma filter_insertSorted x s :
  StronglySorted (lebRel leb) s →
  filter P (insertSorted leb x s)
  = if decide (P x) then insertSorted leb x (filter P s) else filter P s.
Proof.
  induction 1 as [|y s Hs IH Hy]; simpl.
  - rewrite filter_cons, filter_nil. by destruct (decide (P x)).
  - destruct (leb x y) eqn:Hxy.
    + rewrite (filter_cons _ x). destruct (decide (P x)); [|done].
      rewrite insertSorted_front; [done|].
      apply Forall_forall. intros z [->|Hz]%list_elem_of_filter%proj2%elem_of_cons;
        [done|].
      rewrite Forall_forall in Hy. eapply leb_trans; [exact Hxy|by apply Hy].
    + rewrite (filter_cons _ y), IH, (filter_cons _ y).
      destruct (decide (P x)), (decide (P y)); simpl; try done.
      by rewrite Hxy.
Qed.

Hypothesis leb_total : ∀ x y, leb x y = false → leb y x = true.

(** Sorting and filtering commute: a filter keeps the relative order the
    stable sort gave. *)
Lemma filter_stableSort l :
  filter P (stableSort leb l) = stableSort leb (filter P l).
Proof.
  induction l as [|x l IH]; [done|]. simpl.
  rewrite filter_insertSorted, IH, filter_cons.
  - by destruct (decide (P x)).
  - by apply stableSort_StronglySorted.
Qed.
End stable_sort_filter.

(** ** getLeaderboardByCountry *)

Lemma ranks_imap_positional (f : nat → Candidate.t → LeaderboardEntry)
    (l : list Candidate.t) :
  (∀ i c, rank (f i c) = Z.of_nat i + 1) →
  rank <$> imap f l = seqZ 1 (Z.of_nat (length l)).
Proof.
  intros Hf. apply list_eq. intros i.
  rewrite list_lookup_fmap, list_lookup_imap.
  destruct (l !! i) as [c|] eqn:Hi; simpl.
  - rewrite Hf. apply lookup_lt_Some in Hi.
    rewrite lookup_seqZ_lt by lia. f_equal. lia.
  - apply lookup_ge_None in Hi. rewrite lookup_seqZ_ge by lia. done.
Qed.

Lemma prismaTake_all {A} (n : Z) (l : list A) :
  Z.of_nat (length l) <= n → prismaTake n l = l.
Proof.
  intros Hn. unfold prismaTake. destruct (Z.leb_spec 0 n); [|lia].
  apply take_ge. lia.
Qed.

Lemma fmap_filter_imap {B} (f : nat → Candidate.t → LeaderboardEntry)
    (g' : LeaderboardEntry → B) (g : Candidate.t → B)
    (Pe : LeaderboardEntry → Prop) (Pc : Candidate.t → Prop)
    `{∀ e, Decision (Pe e)} `{∀ c, Decision (Pc c)} (l : list Candidate.t) :
  (∀ i c, g' (f i c) = g c) →
  (∀ i c, Pe (f i c) ↔ Pc c) →
  g' <$> filter Pe (imap f l) = g <$> filter Pc l.
Proof.
  revert f. induction l as [|c l IH]; intros f Hg HP; [done|].
  rewrite imap_cons, !filter_cons.
  destruct (decide (Pe (f 0%nat c))) as [He|He], (decide (Pc c)) as [Hc|Hc].
  - rewrite !fmap_cons, Hg. f_equal. apply IH; intros; [apply Hg|apply HP].
  - exfalso. by apply Hc, (HP 0%nat c).
  - exfalso. by apply He, HP.
  - apply IH; intros; [apply Hg|apply HP].
Qed.

Lemma whereApprovedIn_split ctry cs :
  whereApprovedIn ctry cs
  = filter (λ c, Candidate.country c = ctry) (whereApproved cs).
Proof.
  unfold whereApprovedIn, whereApproved. rewrite list_filter_filter.
  apply list_filter_iff. tauto.
Qed.

(** X6: for a limit that is not negative the ranking of a country is
    numbered 1..M on its own, M being the smaller of the limit and the
    number of approved candidates of that country; every entry is an
    approved candidate of the store from that country and carries no
    voteChange and no rankChange. *)
Theorem getLeaderboardByCountry_own_ranks (ctry : string) (limit : Z)
    (w : World) :
  0 <= limit →
  rank <$> getLeaderboardByCountry ctry limit w
  = seqZ 1 (Z.min limit
              (Z.of_nat (length (whereApprovedIn ctry (candidates w)))))
  ∧ ∀ e, e ∈ getLeaderboardByCountry ctry limit w →
         country e = ctry ∧ voteChange e = None ∧ rankChange e = None
         ∧ ∃ c, c ∈ candidates w ∧ Candidate.status c = CS_APPROVED
                ∧ Candidate.id c = candidateId e
                ∧ Candidate.totalVotes c = totalVotes e.
Proof.
  intros Hlimit. unfold getLeaderboardByCountry. split.
  - rewrite ranks_imap_positional by done. f_equal.
    rewrite prismaTake_length by done. by rewrite stableSort_length.
  - intros e (i & He)%list_elem_of_lookup_1.
    rewrite list_lookup_imap in He.
    destruct (prismaTake _ _ !! i) as [c|] eqn:Hc; [|done].
    injection He as <-. simpl.
    apply list_elem_of_lookup_2 in Hc.
    pose proof (elem_of_sublist _ _ _ Hc (prismaTake_sublist _ _)) as Hc'.
    clear Hc. apply stableSort_elem_of in Hc'.
    apply list_elem_of_filter in Hc' as ((Hst & Hctry) & Hin).
    repeat split; try done. by exists c.
Qed.

Lemma getLeaderboardByCountry_own_ranks_witness :
  rank <$> getLeaderboardByCountry "CI" 2 mixedWorld
  = seqZ 1 (Z.min 2
              (Z.of_nat (length (whereApprovedIn "CI" (candidates mixedWorld)))))
  ∧ ∀ e, e ∈ getLeaderboardByCountry "CI" 2 mixedWorld →
         country e = "CI"%string ∧ voteChange e = None ∧ rankChange e = None
         ∧ ∃ c, c ∈ candidates mixedWorld ∧ Candidate.status c = CS_APPROVED
                ∧ Candidate.id c = candidateId e
                ∧ Candidate.totalVotes c = totalVotes e.
Proof. apply (getLeaderboardByCountry_own_ranks "CI" 2 mixedWorld). lia. Defined.

Lemma rankedBefore_antisym a b :
  rankedBefore a b → rankedBefore b a →
  Candidate.totalVotes a = Candidate.totalVotes b
  ∧ Candidate.totalRevenue a = Candidate.totalRevenue b
  ∧ Candidate.createdAt a = Candidate.createdAt b.
Proof. unfold rankedBefore. lia. Qed.

Lemma noFullTies_Permutation rows rows' :
  rows ≡ₚ rows' → noFullTies rows → noFullTies rows'.
Proof.
  intros Hp Hties a b Ha Hb. apply Hties; by rewrite Hp.
Qed.

(** Without full ties the [orderBy] leaves the database no choice. *)
Lemma orderedResult_unique rows1 rows2 :
  noFullTies rows1 → rows1 ≡ₚ rows2 →
  StronglySorted rankedBefore rows1 → StronglySorted rankedBefore rows2 →
  rows1 = rows2.
Proof.
  revert rows2. induction rows1 as [|x l1 IH]; intros rows2 Hties Hp H1 H2.
  { by apply Permutation_nil_l in Hp. }
  destruct rows2 as [|y l2].
  { by apply Permutation_nil_r in Hp. }
  apply StronglySorted_inv in H1 as [H1 Hx].
  apply StronglySorted_inv in H2 as [H2 Hy].
  rewrite Forall_forall in Hx, Hy.
  assert (x = y) as <-.
  { assert (x ∈ y :: l2) as Hxin by (rewrite <- Hp; left).
    assert (y ∈ x :: l1) as Hyin by (rewrite Hp; left).
    apply elem_of_cons in Hxin as [->|Hxin]; [done|].
    apply elem_of_cons in Hyin as [->|Hyin]; [done|].
    destruct (rankedBefore_antisym x y) as (Hv & Hr & Ht);
      [by apply Hx|by apply Hy|].
    apply Hties; [left|by right|done..]. }
  f_equal. apply Permutation_cons_inv in Hp.
  apply IH; [|done..].
  intros a b Ha Hb. apply Hties; by right.
Qed.

Lemma stableSort_orderedResult rows :
  orderedResult rows (stableSort orderBy_leb rows).
Proof.
  split; [apply stableSort_Permutation|].
  eapply StronglySorted_weaken;
    [|apply (stableSort_StronglySorted orderBy_leb);
      [apply orderBy_leb_total|apply orderBy_leb_trans]].
  intros a b. apply orderBy_leb_spec.
Qed.

(** The rows of a country inside an ordered result of all approved rows
    are the ordered result of that country's rows. *)
Lemma orderedResult_country ctry cs rowsC rowsG :
  noFullTies (whereApprovedIn ctry cs) →
  orderedResult (whereApprovedIn ctry cs) rowsC →
  orderedResult (whereApproved cs) rowsG →
  rowsC = filter (λ c, Candidate.country c = ctry) rowsG.
Proof.
  intros Hties [HpC HsC] [HpG HsG].
  apply orderedResult_unique; [| |done|].
  - eapply noFullTies_Permutation; [|exact Hties]. by symmetry.
  - by rewrite HpC, whereApprovedIn_split, HpG.
  - eapply StronglySorted_sublist; [apply sublist_filter|done].
Qed.

(** X7: when neither limit cuts anything off and no two approved
    candidates of the country tie on votes, revenue and creation time
    together, the ranking of a country lists the same candidates with the
    same counters, in the same order, as the entries of that country in
    the global ranking; only the ranks are renumbered.  This holds for
    the two lists the services build, and for the entries built from any
    two query results that respect the [orderBy], in whatever order the
    database returns the rows that tie in the global result. *)
Theorem getLeaderboardByCountry_follows_global (ctry : string)
    (limitC limitG : Z) (w : World) :
  noFullTies (whereApprovedIn ctry (candidates w)) →
  Z.of_nat (length (whereApprovedIn ctry (candidates w))) <= limitC →
  countApproved (candidates w) <= limitG →
  tally <$> getLeaderboardByCountry ctry limitC w
  = tally <$> filter (λ e, country e = ctry) (getLeaderboard limitG w).1
  ∧ ∀ rowsC rowsG : list Candidate.t,
      orderedResult (whereApprovedIn ctry (candidates w)) rowsC →
      orderedResult (whereApproved (candidates w)) rowsG →
      tally <$> imap toCountryEntry rowsC
      = tally <$> filter (λ e, country e = ctry)
                    (imap (toEntry (cachedLeaderboard w)) rowsG).
Proof.
  intros Hties HC HG.
  assert (∀ rowsC rowsG : list Candidate.t,
      orderedResult (whereApprovedIn ctry (candidates w)) rowsC →
      orderedResult (whereApproved (candidates w)) rowsG →
      tally <$> imap toCountryEntry rowsC
      = tally <$> filter (λ e, country e = ctry)
                    (imap (toEntry (cachedLeaderboard w)) rowsG)) as Hany.
  { intros rowsC rowsG HrC HrG.
    rewrite (fmap_filter_imap (toEntry (cachedLeaderboard w)) tally
               (λ c, (Candidate.id c, Candidate.totalVotes c,
                      Candidate.totalRevenue c))
               _ (λ c, Candidate.country c = ctry)); [|done|done].
    rewrite <- (orderedResult_country ctry (candidates w) rowsC rowsG)
      by done.
    rewrite fmap_imap.
    rewrite <- (imap_const (λ c, (Candidate.id c, Candidate.totalVotes c,
                                 Candidate.totalRevenue c))).
    by apply imap_ext. }
  split; [|exact Hany].
  unfold getLeaderboardByCountry.
  rewrite getLeaderboard_fst. unfold findManyApproved.
  rewrite !prismaTake_all.
  2: { by rewrite rankedApproved_length. }
  2: { by rewrite stableSort_length. }
  apply Hany; apply stableSort_orderedResult.
Qed.

Lemma getLeaderboardByCountry_follows_global_witness :
  tally <$> getLeaderboardByCountry "CI" 20 mixedWorld
  = tally <$> filter (λ e, country e = "CI"%string)
                (getLeaderboard 100 mixedWorld).1
  ∧ ∀ rowsC rowsG : list Candidate.t,
      orderedResult (whereApprovedIn "CI" (candidates mixedWorld)) rowsC →
      orderedResult (whereApproved (candidates mixedWorld)) rowsG →
      tally <$> imap toCountryEntry rowsC
      = tally <$> filter (λ e, country e = "CI"%string)
                    (imap (toEntry (cachedLeaderboard mixedWorld)) rowsG).
Proof.
  apply (getLeaderboardByCountry_follows_global "CI" 20 100 mixedWorld).
  - intros a b Ha Hb Hv Hr Ht. vm_compute in Ha, Hb.
    repeat (apply elem_of_cons in Ha as [->|Ha]);
      try (by apply elem_of_nil in Ha);
      repeat (apply elem_of_cons in Hb as [->|Hb]);
      try (by apply elem_of_nil in Hb);
      try reflexivity; vm_compute in Hv, Hr, Ht; congruence.
  - vm_compute. discriminate.
  - vm_compute. discriminate.
Defined.

(** ** Snapshots of a store with unique candidate ids *)

Lemma findManyApproved_NoDup limit cs :
  NoDup (Candidate.id <$> cs) →
  NoDup (Candidate.id <$> findManyApproved limit cs).
Proof.
  intros Hnd.
  apply (sublist_NoDup _ (Candidate.id <$> rankedApproved cs));
    [by apply rankedApproved_NoDup|].
  apply fmap_sublist, prismaTake_sublist.
Qed.

(** [find] on a ranking built from rows with unique ids returns the entry
    of the row asked for. *)
Lemma findEntry_imap cache (l : list Candidate.t) i c :
  NoDup (Candidate.id <$> l) → l !! i = Some c →
  findEntry (Candidate.id c) (imap (toEntry cache) l)
  = Some (toEntry cache i c).
Proof.
  intros Hnd Hi. unfold findEntry.
  assert (list_find (λ e, candidateId e = Candidate.id c)
            (imap (toEntry cache) l) = Some (i, toEntry cache i c)) as ->;
    [|done].
  apply list_find_Some. split; [by rewrite list_lookup_imap, Hi|].
  split; [done|]. intros j e Hj Hlt Heq.
  rewrite list_lookup_imap in Hj.
  destruct (l !! j) as [c'|] eqn:Hc'; [|done]. injection Hj as <-.
  simpl in Heq.
  assert (j = i); [|lia].
  eapply (NoDup_lookup _ _ _ _ Hnd); rewrite list_lookup_fmap.
  - by rewrite Hc'.
  - by rewrite Hi, Heq.
Qed.

(** A ranking computed against the snapshot of the same rows has no
    movement to report. *)
Lemma zero_deltas_against_own_snapshot limit w w1 :
  NoDup (Candidate.id <$> candidates w) →
  candidates w1 = candidates w →
  cachedLeaderboard w1 = (getLeaderboard limit w).1 →
  ∀ e, e ∈ (getLeaderboard limit w1).1 →
       voteChange e = Some 0 ∧ rankChange e = Some 0.
Proof.
  intros Hnd Hcs Hcache e (i & He)%list_elem_of_lookup_1.
  apply getLeaderboard_lookup in He as (c & Hc & ->).
  rewrite Hcs in Hc. rewrite Hcache, getLeaderboard_fst. simpl.
  rewrite (findEntry_imap _ _ i c);
    [|by apply findManyApproved_NoDup|done].
  simpl. split; f_equal; lia.
Qed.



Lemma getRisingStars_none_rising limit w :
  (∀ e, e ∈ (getLeaderboard 100 w).1 → voteChange e = Some 0) →
  (getRisingStars limit w).1 = [].
Proof.
  intros Hzero. rewrite getRisingStars_char. cbn [fst].
  assert (filter (λ e, isRising e = true) (getLeaderboard 100 w).1 = [])
    as ->.
  { induction (getLeaderboard 100 w).1 as [|e l IH]; [done|].
    rewrite filter_cons_False.
    - apply IH. intros e' He'. apply Hzero. by right.
    - unfold isRising. rewrite (Hzero e) by left. done. }
  unfold jsSlice0. simpl. by destruct (0 <=? limit); rewrite take_nil.
Qed.

(** X9: with unique candidate ids, rising stars asked for right after any
    recompute (a refresh, a periodic broadcast, or another rising-stars
    query) are none, whatever votes came in before that recompute: the
    recompute replaced the snapshot the gains are measured against. *)
Theorem getRisingStars_empty_after_recompute (limit limit' : Z) (w : World) :
  NoDup (Candidate.id <$> candidates w) →
  (getRisingStars limit (refreshLeaderboard w).2).1 = []
  ∧ (getRisingStars limit (broadcastLeaderboardUpdate w)).1 = []
  ∧ (getRisingStars limit (getRisingStars limit' w).2).1 = [].
Proof.
  intros Hnd. rewrite getRisingStars_char. cbn [snd].
  split; [|split]; apply getRisingStars_none_rising; intros e He;
    match type of He with
    | _ ∈ (getLeaderboard 100 ?w1).1 =>
        exact (proj1 (zero_deltas_against_own_snapshot 100 w w1 Hnd
                        eq_refl eq_refl e He))
    end.
Qed.

Lemma getRisingStars_empty_after_recompute_witness :
  (getRisingStars 10 (refreshLeaderboard votedWorld).2).1 = []
  ∧ (getRisingStars 10 (broadcastLeaderboardUpdate votedWorld)).1 = []
  ∧ (getRisingStars 10 (getRisingStars 10 votedWorld).2).1 = [].
Proof.
  apply (getRisingStars_empty_after_recompute 10 10 votedWorld).
  apply (bool_decide_unpack (NoDup (Candidate.id <$> candidates votedWorld))).
  vm_compute. exact I.
Defined.

(** ** getTopCandidates, getStats and getCandidateRank *)

Lemma take_seqZ (n : nat) (m k : Z) :
  take n (seqZ m k) = seqZ m (Z.min (Z.of_nat n) k).
Proof.
  apply list_eq. intros i.
  destruct (decide (i < n)%nat) as [Hi|Hi].
  - rewrite lookup_take_lt by done.
    destruct (decide (Z.of_nat i < k)) as [Hk|Hk].
    + by rewrite !lookup_seqZ_lt by lia.
    + by rewrite !lookup_seqZ_ge by lia.
  - rewrite lookup_take_ge by lia. by rewrite lookup_seqZ_ge by lia.
Qed.

Lemma getLeaderboard_100_length w :
  Z.of_nat (length (getLeaderboard 100 w).1)
  = Z.min 100 (countApproved (candidates w)).
Proof.
  rewrite getLeaderboard_fst, length_imap. unfold findManyApproved.
  rewrite prismaTake_length by lia. by rewrite rankedApproved_length.
Qed.

(** X10: for a limit that is not negative getTopCandidates returns the
    entries ranked 1..K of the fresh top-100 ranking in order, K being the
    smallest of the limit, 100 and the number of approved candidates; a
    limit above 100 yields no more than the top 100. *)
Theorem getTopCandidates_first_ranks (limit : Z) (w : World) :
  0 <= limit →
  rank <$> (getTopCandidates limit w).1
  = seqZ 1 (Z.min limit (Z.min 100 (countApproved (candidates w))))
  ∧ (getTopCandidates limit w).1 `prefix_of` (getLeaderboard 100 w).1.
Proof.
  intros Hlimit. rewrite getTopCandidates_char. cbn [fst].
  unfold jsSlice0. destruct (Z.leb_spec 0 limit); [|lia]. split.
  - rewrite fmap_take, getLeaderboard_ranks, take_seqZ.
    rewrite getLeaderboard_100_length. f_equal. lia.
  - apply prefix_take.
Qed.

Lemma getTopCandidates_first_ranks_witness :
  rank <$> (getTopCandidates 3 (storeOf (crowd 10))).1
  = seqZ 1 (Z.min 3 (Z.min 100 (countApproved (candidates (storeOf (crowd 10))))))
  ∧ (getTopCandidates 3 (storeOf (crowd 10))).1
    `prefix_of` (getLeaderboard 100 (storeOf (crowd 10))).1.
Proof. apply (getTopCandidates_first_ranks 3 (storeOf (crowd 10))). lia. Defined.

Lemma sumZ_Permutation {A} (f : A → Z) (l l' : list A) :
  l ≡ₚ l' → sumZ f l = sumZ f l'.
Proof.
  unfold sumZ. induction 1; csimpl; lia.
Qed.

Lemma sumZ_imap_toEntry cache (l : list Candidate.t) :
  sumZ totalVotes (imap (toEntry cache) l) = sumZ Candidate.totalVotes l
  ∧ sumZ totalRevenue (imap (toEntry cache) l)
    = sumZ Candidate.totalRevenue l.
Proof.
  unfold sumZ. rewrite !fmap_imap.
  rewrite <- (imap_const Candidate.totalVotes),
          <- (imap_const Candidate.totalRevenue).
  split; f_equal; by apply imap_ext.
Qed.

(** X11: every broadcast appends exactly one message. While at most 100
    candidates are approved its statistics agree with its leaderboard: the
    candidate count is the number of entries and the vote and revenue
    totals are the sums over the entries; beyond 100 the leaderboard has
    100 entries and the statistics still count every approved candidate. *)
Theorem broadcast_stats_match_leaderboard (w : World) :
  ∃ m,
    emitted (broadcastLeaderboardUpdate w) = emitted w ++ [m]
    ∧ Z.of_nat (length (msgLeaderboard m))
      = Z.min 100 (totalCandidates (msgStats m))
    ∧ totalCandidates (msgStats m) = countApproved (candidates w)
    ∧ (countApproved (candidates w) <= 100 →
       statsTotalVotes (msgStats m) = sumZ totalVotes (msgLeaderboard m)
       ∧ statsTotalRevenue (msgStats m)
         = sumZ totalRevenue (msgLeaderboard m)).
Proof.
  eexists. split; [reflexivity|]. cbn [msgLeaderboard msgStats].
  split; [apply getLeaderboard_100_length|]. split; [done|].
  intros Hle.
  destruct (sumZ_imap_toEntry (cachedLeaderboard w)
              (findManyApproved 100 (candidates w))) as (-> & ->).
  unfold findManyApproved.
  rewrite prismaTake_all by (by rewrite rankedApproved_length).
  unfold rankedApproved.
  rewrite !(sumZ_Permutation _ _ _ (stableSort_Permutation _ _)).
  done.
Qed.

Lemma broadcast_stats_match_leaderboard_witness :
  ∃ m,
    emitted (broadcastLeaderboardUpdate mixedWorld) = emitted mixedWorld ++ [m]
    ∧ statsTotalVotes (msgStats m) = sumZ totalVotes (msgLeaderboard m)
    ∧ statsTotalRevenue (msgStats m) = sumZ totalRevenue (msgLeaderboard m).
Proof.
  destruct (broadcast_stats_match_leaderboard mixedWorld)
    as (m & Hm & _ & _ & Hsum).
  exists m. split; [exact Hm|]. apply Hsum. vm_compute. discriminate.
Defined.

(** X12: with unique candidate ids, getCandidateRank for an approved
    candidate standing at one of the first 100 positions of the ranking
    returns its entry, with rank = position + 1 and the candidate's own
    counters, together with the number of approved candidates. *)
Theorem getCandidateRank_in_top100 (w : World) (c : Candidate.t) (i : nat) :
  NoDup (Candidate.id <$> candidates w) →
  rankedApproved (candidates w) !! i = Some c →
  (i < 100)%nat →
  ∃ e, entry (getCandidateRank (Candidate.id c) w).1 = Some e
       ∧ candidateId e = Candidate.id c
       ∧ rank e = Z.of_nat i + 1
       ∧ totalVotes e = Candidate.totalVotes c
       ∧ totalRevenue e = Candidate.totalRevenue c
       ∧ total (getCandidateRank (Candidate.id c) w).1
         = countApproved (candidates w).
Proof.
  intros Hnd Hc Hi. rewrite getCandidateRank_char. cbn [fst entry total].
  rewrite getLeaderboard_fst.
  exists (toEntry (cachedLeaderboard w) i c).
  split; [|done].
  apply findEntry_imap; [by apply findManyApproved_NoDup|].
  unfold findManyApproved.
  change (prismaTake 100 ?l) with (take 100 l).
  by rewrite lookup_take_lt.
Qed.

Lemma getCandidateRank_in_top100_witness :
  ∃ e, entry (getCandidateRank "C" mixedWorld).1 = Some e
       ∧ candidateId e = "C"%string
       ∧ rank e = Z.of_nat 3 + 1
       ∧ totalVotes e = 95
       ∧ totalRevenue e = 20000
       ∧ total (getCandidateRank "C" mixedWorld).1
         = countApproved (candidates mixedWorld).
Proof.
  apply (getCandidateRank_in_top100 mixedWorld candC 3).
  - apply (bool_decide_unpack
             (NoDup (Candidate.id <$> candidates mixedWorld))).
    vm_compute. exact I.
  - reflexivity.
  - lia.
Defined.

(** X13: getCandidateRank for an id that no approved candidate carries (an
    unknown id, or a candidate still awaiting approval) returns entry =
    null and the number of approved candidates all the same. *)
Theorem getCandidateRank_unknown (cid : string) (w : World) :
  (∀ c, c ∈ candidates w → Candidate.status c = CS_APPROVED →
        Candidate.id c ≠ cid) →
  (getCandidateRank cid w).1
  = {| entry := None; total := countApproved (candidates w) |}.
Proof.
  intros Hunknown. rewrite getCandidateRank_char. cbn [fst]. f_equal.
  apply findEntry_None. rewrite getLeaderboard_ids.
  intros (c & -> & Hc)%list_elem_of_fmap.
  apply findManyApproved_elem_of in Hc as (Hin & Hst).
  by apply (Hunknown c).
Qed.

Lemma getCandidateRank_unknown_witness :
  (getCandidateRank "E" mixedWorld).1
  = {| entry := None; total := countApproved (candidates mixedWorld) |}.
Proof.
  apply (getCandidateRank_unknown "E" mixedWorld).
  intros c Hc Hst.
  repeat (apply elem_of_cons in Hc as [->|Hc]; [by vm_compute|]).
  by apply elem_of_nil in Hc.
Defined.

(** X14: with unique candidate ids a snapshot lists no candidate twice and
    never a candidate that is not approved; when the limit leaves room for
    all of them, every approved candidate of the store is listed. *)
Theorem getLeaderboard_members (limit : Z) (w : World) :
  NoDup (Candidate.id <$> candidates w) →
  NoDup (candidateId <$> (getLeaderboard limit w).1)
  ∧ (∀ c, c ∈ candidates w → Candidate.status c ≠ CS_APPROVED →
          Candidate.id c ∉ candidateId <$> (getLeaderboard limit w).1)
  ∧ (countApproved (candidates w) <= limit →
     ∀ c, c ∈ candidates w → Candidate.status c = CS_APPROVED →
          Candidate.id c ∈ candidateId <$> (getLeaderboard limit w).1).
Proof.
  intros Hnd. rewrite getLeaderboard_ids. split; [|split].
  - by apply findManyApproved_NoDup.
  - intros c Hc Hst (c' & Heq & Hc')%list_elem_of_fmap.
    apply findManyApproved_elem_of in Hc' as (Hin' & Hst').
    apply list_elem_of_lookup_1 in Hc as (j & Hj).
    apply list_elem_of_lookup_1 in Hin' as (j' & Hj').
    assert (j = j') as ->.
    { eapply (NoDup_lookup _ _ _ _ Hnd); rewrite list_lookup_fmap.
      - by rewrite Hj.
      - by rewrite Hj', Heq. }
    congruence.
  - intros Hle c Hc Hst. apply list_elem_of_fmap_2.
    unfold findManyApproved.
    rewrite prismaTake_all by (by rewrite rankedApproved_length).
    by apply rankedApproved_elem_of.
Qed.

Lemma getLeaderboard_members_witness :
  NoDup (candidateId <$> (getLeaderboard 100 mixedWorld).1)
  ∧ (∀ c, c ∈ candidates mixedWorld → Candidate.status c ≠ CS_APPROVED →
          Candidate.id c ∉ candidateId <$> (getLeaderboard 100 mixedWorld).1)
  ∧ (countApproved (candidates mixedWorld) <= 100 →
     ∀ c, c ∈ candidates mixedWorld → Candidate.status c = CS_APPROVED →
          Candidate.id c ∈ candidateId <$> (getLeaderboard 100 mixedWorld).1).
Proof.
  apply (getLeaderboard_members 100 mixedWorld).
  apply (bool_decide_unpack (NoDup (Candidate.id <$> candidates mixedWorld))).
  vm_compute. exact I.
Defined.

(** * Properties of the controller and the gateway *)

Lemma controllerRefresh_char w :
  controllerRefreshLeaderboard w
  = ((getLeaderboard 100 w).1, triggerUpdate (getLeaderboard 100 w).2).
Proof. done. Qed.

(** X15: with unique candidate ids, an admin refresh recomputes twice: the
    response carries the ranking with its deltas against the snapshot held
    before, while the one message it broadcasts, and the snapshot left in
    the cache, show the same standings with every voteChange and rankChange
    at 0. *)
Theorem controllerRefresh_broadcasts_zero_deltas (w : World) :
  NoDup (Candidate.id <$> candidates w) →
  let response := (controllerRefreshLeaderboard w).1 in
  let w' := (controllerRefreshLeaderboard w).2 in
  response = (getLeaderboard 100 w).1
  ∧ ∃ m, emitted w' = emitted w ++ [m]
         ∧ cachedLeaderboard w' = msgLeaderboard m
         ∧ standing <$> msgLeaderboard m = standing <$> response
         ∧ ∀ e, e ∈ msgLeaderboard m →
                voteChange e = Some 0 ∧ rankChange e = Some 0.
Proof.
  intros Hnd response w'. subst response w'.
  rewrite controllerRefresh_char. cbn [fst snd]. split; [done|].
  eexists. split; [reflexivity|]. cbn [msgLeaderboard].
  split; [done|]. unfold refreshLeaderboard. split.
  - by apply getLeaderboard_standing.
  - by apply (zero_deltas_against_own_snapshot 100 w
                (getLeaderboard 100 w).2 Hnd).
Qed.

Lemma controllerRefresh_broadcasts_zero_deltas_witness :
  (controllerRefreshLeaderboard votedWorld).1 = (getLeaderboard 100 votedWorld).1
  ∧ ∃ m, emitted (controllerRefreshLeaderboard votedWorld).2
         = emitted votedWorld ++ [m]
         ∧ cachedLeaderboard (controllerRefreshLeaderboard votedWorld).2
           = msgLeaderboard m
         ∧ standing <$> msgLeaderboard m
           = standing <$> (controllerRefreshLeaderboard votedWorld).1
         ∧ ∀ e, e ∈ msgLeaderboard m →
                voteChange e = Some 0 ∧ rankChange e = Some 0.
Proof.
  apply (controllerRefresh_broadcasts_zero_deltas votedWorld).
  apply (bool_decide_unpack (NoDup (Candidate.id <$> candidates votedWorld))).
  vm_compute. exact I.
Defined.

Lemma timerCall_invariant g c :
  activeIntervals g = option_list (updateInterval g) →
  activeIntervals (timerCall g c) = option_list (updateInterval (timerCall g c))
  ∧ match c with
    | CallStart => ∃ h, updateInterval (timerCall g c) = Some h
    | CallStop => updateInterval (timerCall g c) = None
    end.
Proof.
  intros Hinv. destruct c; simpl.
  - unfold startAutoUpdates. destruct (updateInterval g) as [h|] eqn:Hh.
    + simpl. rewrite Hinv. simpl.
      rewrite filter_cons_False, filter_nil by (by intros ?). eauto.
    + simpl. rewrite Hinv. simpl. eauto.
  - unfold stopAutoUpdates. destruct (updateInterval g) as [h|] eqn:Hh.
    + simpl. rewrite Hinv. simpl.
      by rewrite filter_cons_False, filter_nil by (by intros ?).
    + by rewrite Hinv, Hh.
Qed.

(** X16: the gateway never keeps two periodic timers going: if the running
    interval timers are exactly the one the gateway holds (none when it
    holds none), this stays so after any sequence of startAutoUpdates and
    stopAutoUpdates calls; after a start exactly one timer runs, after a
    stop none. *)
Theorem at_most_one_interval (calls : list TimerCall) (g : Gateway) :
  activeIntervals g = option_list (updateInterval g) →
  let g' := foldl timerCall g calls in
  activeIntervals g' = option_list (updateInterval g')
  ∧ (length (activeIntervals g') ≤ 1)%nat
  ∧ (last calls = Some CallStart → length (activeIntervals g') = 1%nat)
  ∧ (last calls = Some CallStop → activeIntervals g' = []).
Proof.
  revert g. induction calls as [|c calls IH] using rev_ind; intros g Hinv g'.
  - subst g'. simpl. split; [done|]. rewrite Hinv.
    split; [destruct (updateInterval g); simpl; lia|]. by split.
  - subst g'. rewrite foldl_snoc, last_snoc.
    destruct (IH g Hinv) as (Hinv' & _).
    destruct (timerCall_invariant (foldl timerCall g calls) c Hinv')
      as (Hinv'' & Hc).
    split; [done|]. rewrite Hinv''.
    destruct c.
    + destruct Hc as (h & ->). simpl. split; [lia|]. by split.
    + rewrite Hc. simpl. split; [lia|]. by split.
Qed.

Lemma at_most_one_interval_witness :
  let g' := foldl timerCall (newGateway pendingWorld)
              [CallStart; CallStart; CallStop; CallStart] in
  activeIntervals g' = option_list (updateInterval g')
  ∧ (length (activeIntervals g') ≤ 1)%nat
  ∧ (last [CallStart; CallStart; CallStop; CallStart] = Some CallStart →
     length (activeIntervals g') = 1%nat)
  ∧ (last [CallStart; CallStart; CallStop; CallStart] = Some CallStop →
     activeIntervals g' = []).
Proof.
  apply (at_most_one_interval _ (newGateway pendingWorld)). reflexivity.
Defined.

Lemma handle_step g ev :
  connectedClients (handle g ev) = connectedClients g + clientDelta ev
  ∧ fst <$> outbox (handle g ev) = (fst <$> outbox g) ++ answered ev
  ∧ emitted (service (handle g ev)) = emitted (service g)
  ∧ candidates (service (handle g ev)) = candidates (service g)
  ∧ votes (service (handle g ev)) = votes (service g)
  ∧ updateInterval (handle g ev) = updateInterval g
  ∧ activeIntervals (handle g ev) = activeIntervals g.
Proof.
  destruct ev; simpl;
    unfold handleConnection, handleRefresh, sendLeaderboardToClient,
      handleCandidateRank, handleTopRequest, handleByCountry;
    rewrite ?getCandidateRank_char, ?getTopCandidates_char;
    simpl; rewrite ?fmap_app, ?app_nil_r; repeat split; (done || lia).
Qed.

Lemma handleAll_steps (evs : list SocketEvent) (g : Gateway) :
  connectedClients (handleAll evs g)
  = connectedClients g + sumZ clientDelta evs
  ∧ fst <$> outbox (handleAll evs g)
    = (fst <$> outbox g) ++ (evs ≫= answered)
  ∧ emitted (service (handleAll evs g)) = emitted (service g)
  ∧ candidates (service (handleAll evs g)) = candidates (service g)
  ∧ votes (service (handleAll evs g)) = votes (service g)
  ∧ updateInterval (handleAll evs g) = updateInterval g
  ∧ activeIntervals (handleAll evs g) = activeIntervals g.
Proof.
  revert g. induction evs as [|ev evs IH]; intros g.
  - simpl. rewrite app_nil_r. repeat split; (done || (unfold sumZ; simpl; lia)).
  - change (handleAll (ev :: evs) g) with (handleAll evs (handle g ev)).
    destruct (IH (handle g ev)) as (-> & -> & -> & -> & -> & -> & ->).
    destruct (handle_step g ev) as (-> & -> & -> & -> & -> & -> & ->).
    rewrite <- app_assoc. unfold sumZ. csimpl.
    repeat split; (done || lia).
Qed.

(** X17: with the database answering every query, once the handlers
    started for a series of socket events have all run to their end, in
    whatever order [ran] they were run one after the other, the sockets that
    were sent a message are, counted with repetitions, those that connected
    or asked: one message per connection and per request, none for a
    disconnection.  Nothing is said about the order in which the answers
    leave.  Nothing is broadcast, the tables and the timer are left alone,
    and the client counter has moved by +1 per connection and -1 per
    disconnection. *)
Theorem handleAll_answers_each_request (evs ran : list SocketEvent)
    (g : Gateway) :
  ran ≡ₚ evs →
  connectedClients (handleAll ran g)
  = connectedClients g + sumZ clientDelta evs
  ∧ fst <$> outbox (handleAll ran g)
    ≡ₚ (fst <$> outbox g) ++ (evs ≫= answered)
  ∧ emitted (service (handleAll ran g)) = emitted (service g)
  ∧ candidates (service (handleAll ran g)) = candidates (service g)
  ∧ votes (service (handleAll ran g)) = votes (service g)
  ∧ updateInterval (handleAll ran g) = updateInterval g
  ∧ activeIntervals (handleAll ran g) = activeIntervals g.
Proof.
  intros Hdone.
  destruct (handleAll_steps ran g) as (-> & -> & -> & -> & -> & -> & ->).
  rewrite (sumZ_Permutation clientDelta ran evs Hdone).
  repeat split. by rewrite Hdone.
Qed.

Lemma handleAll_answers_each_request_witness :
  let evs := [Connect "s1"; AskTop "s2" None; Disconnect "s1"] in
  let ran := [AskTop "s2" None; Connect "s1"; Disconnect "s1"] in
  let g := newGateway votedWorld in
  connectedClients (handleAll ran g)
  = connectedClients g + sumZ clientDelta evs
  ∧ fst <$> outbox (handleAll ran g)
    ≡ₚ (fst <$> outbox g) ++ (evs ≫= answered)
  ∧ emitted (service (handleAll ran g)) = emitted (service g)
  ∧ candidates (service (handleAll ran g)) = candidates (service g)
  ∧ votes (service (handleAll ran g)) = votes (service g)
  ∧ updateInterval (handleAll ran g) = updateInterval g
  ∧ activeIntervals (handleAll ran g) = activeIntervals g.
Proof.
  intros evs ran g.
  apply (handleAll_answers_each_request evs ran g).
  apply perm_swap.
Defined.

Lemma jsSlice0_ranks limit w :
  0 <= limit →
  rank <$> jsSlice0 limit (getLeaderboard 100 w).1
  = seqZ 1 (Z.min limit (Z.min 100 (countApproved (candidates w)))).
Proof.
  intros Hlimit. unfold jsSlice0. destruct (Z.leb_spec 0 limit); [|lia].
  rewrite fmap_take, getLeaderboard_ranks, take_seqZ.
  rewrite getLeaderboard_100_length. f_equal. lia.
Qed.

(** X18: a top request with a limit that is not negative is answered with
    the entries ranked 1..K, K being the smallest of the effective limit,
    100 and the number of approved candidates, where a missing limit and a
    limit of 0 both count as 10: the answer is empty only when no candidate
    is approved. *)
Theorem handleTopRequest_never_empty (dataLimit : option Z) (client : string)
    (g : Gateway) :
  from_option (λ n, 0 <= n) True dataLimit →
  ∃ found timestamp,
    outbox (handleTopRequest dataLimit client g)
    = outbox g ++ [(client, TopResponse (limitOr 10 dataLimit) found timestamp)]
    ∧ 0 < limitOr 10 dataLimit
    ∧ (dataLimit = None ∨ dataLimit = Some 0 → limitOr 10 dataLimit = 10)
    ∧ rank <$> found
      = seqZ 1 (Z.min (limitOr 10 dataLimit)
                  (Z.min 100 (countApproved (candidates (service g)))))
    ∧ (found = [] ↔ countApproved (candidates (service g)) = 0).
Proof.
  intros Hlimit.
  assert (0 < limitOr 10 dataLimit) as Hpos.
  { unfold limitOr. destruct dataLimit as [n|]; [|lia]. simpl in Hlimit.
    destruct (Z.eqb_spec n 0); lia. }
  unfold handleTopRequest. rewrite getTopCandidates_char.
  eexists _, _. split; [reflexivity|]. split; [done|]. split.
  { intros [->| ->]; reflexivity. }
  pose proof (jsSlice0_ranks (limitOr 10 dataLimit) (service g)) as Hranks.
  split; [apply Hranks; lia|].
  specialize (Hranks ltac:(lia)).
  apply (f_equal length) in Hranks.
  rewrite length_fmap, length_seqZ in Hranks.
  assert (0 <= countApproved (candidates (service g)))
    by (unfold countApproved; lia).
  split.
  - intros Hnil. rewrite Hnil in Hranks. simpl in Hranks. lia.
  - intros Hzero. apply length_zero_iff_nil. lia.
Qed.

Lemma handleTopRequest_never_empty_witness :
  ∃ found timestamp,
    outbox (handleTopRequest (Some 0) "s1" (newGateway mixedWorld))
    = outbox (newGateway mixedWorld)
      ++ [("s1"%string, TopResponse (limitOr 10 (Some 0)) found timestamp)]
    ∧ 0 < limitOr 10 (Some 0)
    ∧ (Some 0 = None ∨ Some 0 = Some 0 → limitOr 10 (Some 0) = 10)
    ∧ rank <$> found
      = seqZ 1 (Z.min (limitOr 10 (Some 0))
                  (Z.min 100 (countApproved
                                (candidates (service (newGateway mixedWorld))))))
    ∧ (found = []
       ↔ countApproved (candidates (service (newGateway mixedWorld))) = 0).
Proof.
  apply (handleTopRequest_never_empty (Some 0) "s1" (newGateway mixedWorld)).
  simpl. lia.
Defined.

(** * Properties of the status check *)








(** X21: checkPaymentStatus fails without touching anything when the vote
    id is unknown (NotFoundException), when the vote has no provider
    reference or an empty one (BadRequestException) and when the provider
    cannot be reached (BadRequestException); when the provider reports the
    status the vote already has, in any letter case, it returns the vote
    and changes nothing. *)
Theorem checkPaymentStatus_edges (toUpperCase : string → string)
    (vid : string) (w : World) :
  (vid ∉ Vote.id <$> votes w →
   ∀ answer,
     checkPaymentStatus toUpperCase vid answer w
     = (inl (NotFoundException "Vote introuvable"), w))
  ∧ (∀ fv answer,
       findOne vid w = inr fv →
       Vote.providerTxId (row fv) = None
       ∨ Vote.providerTxId (row fv) = Some EmptyString →
       checkPaymentStatus toUpperCase vid answer w
       = (inl (BadRequestException
                 "Aucune référence de paiement pour ce vote"), w))
  ∧ (∀ fv ref,
       findOne vid w = inr fv →
       Vote.providerTxId (row fv) = Some ref → ref ≠ EmptyString →
       checkPaymentStatus toUpperCase vid None w
       = (inl (BadRequestException
                 "Impossible de vérifier le statut du paiement"), w))
  ∧ (∀ fv ref s,
       findOne vid w = inr fv →
       Vote.providerTxId (row fv) = Some ref → ref ≠ EmptyString →
       toUpperCase s = statusName (Vote.paymentStatus (row fv)) →
       checkPaymentStatus toUpperCase vid (Some s) w
       = (inr (StatusUnchanged fv), w)).
Proof.
  split; [|split; [|split]].
  - intros Hnot answer. unfold checkPaymentStatus, findOne.
    destruct (list_find _ (votes w)) as [[i v]|] eqn:Hfind; [|done].
    exfalso. apply Hnot. apply list_find_Some in Hfind as (Hi & <- & _).
    apply list_elem_of_fmap_2. by eapply list_elem_of_lookup_2.
  - intros fv answer Hone [Href|Href]; unfold checkPaymentStatus;
      rewrite Hone, Href; [done|]. by rewrite decide_True.
  - intros fv ref Hone Href Hne. unfold checkPaymentStatus.
    rewrite Hone, Href. by rewrite decide_False.
  - intros fv ref s Hone Href Hne Hup. unfold checkPaymentStatus.
    rewrite Hone, Href, decide_False by done.
    rewrite decide_False; [done|]. by intros Hneq.
Qed.

Lemma checkPaymentStatus_edges_witness :
  checkPaymentStatus upperLatin "vote-1" (Some "pending"%string) pendingWorld
  = (inr (StatusUnchanged
            {| row := pendingVote;
               candidate := findCandidate "A" (candidates pendingWorld);
               transaction := findTransaction "vote-1"
                                (transactions pendingWorld) |}),
     pendingWorld).
Proof.
  apply (proj2 (proj2 (proj2
           (checkPaymentStatus_edges upperLatin "vote-1" pendingWorld)))
           _ "tx-1" "pending"); try reflexivity.
  discriminate.
Defined.

(** * Passes under any schedule *)

Lemma step_conserves r ev :
  (passesStarted (step r ev) + length (emitted (world r))
   + length (inFlight r)
   = passesStarted r + length (emitted (world (step r ev)))
     + length (inFlight (step r ev)))%nat
  ∧ candidates (world (step r ev)) = candidates (world r)
  ∧ votes (world (step r ev)) = votes (world r).
Proof.
  destruct ev as [t|i]; simpl.
  - rewrite length_app. simpl. split; [lia|done].
  - unfold resume. destruct (inFlight r !! i) as [[|lb]|] eqn:Hi; simpl.
    + rewrite length_insert. split; [lia|done].
    + rewrite length_app, length_delete by (by eexists). simpl.
      apply lookup_lt_Some in Hi. split; [lia|done].
    + split; [lia|done].
Qed.

(** X22: under every schedule of triggers and database replies, replies
    for passes that do not exist included, each pass that was started is
    either still in flight or has broadcast exactly once: the passes
    started equal the messages broadcast plus the passes in flight; and the
    passes never write to the candidate or vote tables. *)
Theorem passes_conserved (evs : list Event) (r : Runtime) :
  (passesStarted (run evs r) + length (emitted (world r))
   + length (inFlight r)
   = passesStarted r + length (emitted (world (run evs r)))
     + length (inFlight (run evs r)))%nat
  ∧ candidates (world (run evs r)) = candidates (world r)
  ∧ votes (world (run evs r)) = votes (world r).
Proof.
  revert r. induction evs as [|ev evs IH]; intros r; [done|].
  rewrite run_cons.
  destruct (IH (step r ev)) as (Hn & -> & ->).
  destruct (step_conserves r ev) as (Hn' & -> & ->).
  split; [lia|done].
Qed.

(** * Statistics after a confirmation *)

Lemma sumZ_filter {A} (f : A → Z) (P : A → Prop) `{∀ x, Decision (P x)}
    (l : list A) :
  sumZ f (filter P l) = sumZ (λ x, if decide (P x) then f x else 0) l.
Proof.
  unfold sumZ. induction l as [|x l IH]; [done|].
  rewrite filter_cons, fmap_cons. cbn [foldr].
  destruct (decide (P x)); cbn [fmap list_fmap foldr]; lia.
Qed.

Lemma length_filter_sumZ {A} (P : A → Prop) `{∀ x, Decision (P x)}
    (l : list A) :
  Z.of_nat (length (filter P l)) = sumZ (λ x, if decide (P x) then 1 else 0) l.
Proof.
  unfold sumZ. induction l as [|x l IH]; [done|].
  rewrite filter_cons, fmap_cons. cbn [foldr].
  destruct (decide (P x)); cbn [length]; lia.
Qed.

(** X23: after a COMPLETED confirmation for a vote that is not COMPLETED
    yet, the global statistics count the same candidates and, when the
    credited candidate is approved, one vote and the amount more; when it
    is not approved (any more) the totals stay as they were (vote ids
    unique, the candidate on record). *)
Theorem confirmPayment_moves_stats (ref : string) (payload : option string)
    (w : World) (v : Vote.t) (c : Candidate.t) :
  NoDup (Vote.id <$> votes w) →
  findVote ref (votes w) = Some v →
  Vote.paymentStatus v ≠ COMPLETED →
  findCandidate (Vote.candidateId v) (candidates w) = Some c →
  let w' := (confirmPayment ref COMPLETED payload w).2 in
  totalCandidates (getStats w') = totalCandidates (getStats w)
  ∧ statsTotalVotes (getStats w')
    = statsTotalVotes (getStats w)
      + (if decide (Candidate.status c = CS_APPROVED) then 1 else 0)
  ∧ statsTotalRevenue (getStats w')
    = statsTotalRevenue (getStats w)
      + (if decide (Candidate.status c = CS_APPROVED)
         then Vote.amount v else 0).
Proof.
  intros Hnd Hfind Hst Hcand w'. subst w'.
  unfold findVote in Hfind.
  destruct (list_find _ (votes w)) as [[i v0]|] eqn:Hi; [|done].
  injection Hfind as ->.
  unfold findCandidate in Hcand.
  destruct (list_find _ (candidates w)) as [[k c0]|] eqn:Hk; [|done].
  injection Hcand as ->.
  destruct (confirmPayment_step ref COMPLETED payload w i v Hnd Hi Hst)
    as (out & w' & -> & _ & _ & Hc).
  specialize (Hc eq_refl). rewrite Hk in Hc. destruct Hc as [_ Hc].
  apply list_find_Some in Hk as (Hk & _).
  unfold getStats. cbn [fst snd totalCandidates statsTotalVotes
                          statsTotalRevenue].
  rewrite Hc. unfold whereApproved.
  fold (sumZ Candidate.totalVotes
          (filter (λ c0, Candidate.status c0 = CS_APPROVED)
             (<[k:=incrementData (Vote.amount v) c]> (candidates w)))).
  fold (sumZ Candidate.totalVotes
          (filter (λ c0, Candidate.status c0 = CS_APPROVED) (candidates w))).
  fold (sumZ Candidate.totalRevenue
          (filter (λ c0, Candidate.status c0 = CS_APPROVED)
             (<[k:=incrementData (Vote.amount v) c]> (candidates w)))).
  fold (sumZ Candidate.totalRevenue
          (filter (λ c0, Candidate.status c0 = CS_APPROVED) (candidates w))).
  rewrite !length_filter_sumZ, !sumZ_filter.
  rewrite !(sumZ_insert _ _ _ _ _ Hk). simpl.
  destruct (decide (Candidate.status c = CS_APPROVED)); repeat split; lia.
Qed.

Lemma confirmPayment_moves_stats_witness :
  let w' := (confirmPayment "tx-1" COMPLETED None pendingWorld).2 in
  totalCandidates (getStats w') = totalCandidates (getStats pendingWorld)
  ∧ statsTotalVotes (getStats w')
    = statsTotalVotes (getStats pendingWorld)
      + (if decide (Candidate.status candA = CS_APPROVED) then 1 else 0)
  ∧ statsTotalRevenue (getStats w')
    = statsTotalRevenue (getStats pendingWorld)
      + (if decide (Candidate.status candA = CS_APPROVED)
         then Vote.amount pendingVote else 0).
Proof.
  apply (confirmPayment_moves_stats "tx-1" None pendingWorld pendingVote candA).
  - apply NoDup_singleton.
  - reflexivity.
  - discriminate.
  - reflexivity.
Defined.
